(** * LangSwitch: the translation cache and the tree translator

    A shallow embedding of the two halves of the package:

    - [Core]: the server-side [TranslationManager] of langswitch-core
      (in-memory cache, reconciliation with the translations file, the
      merge written back on save, the cache-then-fetch protocol);
    - [Client]: the [Translate] component of langswitch-react (session
      cache, the two-pass tree traversal, the effect that starts a pass).

    JavaScript objects and [Map]s used as dictionaries are finite maps with
    string keys (the order of the entries plays no part; the one property
    name that an assignment treats apart is handled by [assign]). Strings
    are sequences of code units below 256. A promise is modelled by the
    value it settles to, one call at a time: two calls on the same manager
    are not interleaved, and nothing edits the translations file while a
    call runs. *)

From stdpp Require Import gmap strings list fin_maps.
From Stdlib Require Import ZArith Ascii Sorted.

Open Scope string_scope.

(** ** Shared vocabulary *)

(** A settled promise: fulfilled with a value or rejected with an error. *)
Inductive exception :=
| TypeError
| SyntaxError
| Error (message : string).

Inductive result (A : Type) :=
| Ok (a : A)
| Throw (e : exception).
Arguments Ok {A} a.
Arguments Throw {A} e.

(** JavaScript truthiness of a string-or-undefined value: [undefined] and
    the empty string are falsy. *)
Definition truthy (v : option string) : bool :=
  match v with
  | Some s => negb (String.eqb s "")
  | None => false
  end.

(** [{...a, ...b}]: the properties of [b] are copied after those of [a]
    and win on equal keys. *)
Definition spread {V} (a b : gmap string V) : gmap string V := b ∪ a.

(** The one property name that an assignment to a plain object treats
    apart: [Object.prototype] holds an accessor of this name. *)
Definition proto : string := "__proto__".

(** [obj[key] = value] on a plain object. The assignment creates or
    replaces an own property, unless [key] is ["__proto__"] and [obj] has
    no own property of that name: it then reaches the inherited accessor,
    which replaces the prototype of [obj] and creates no property, so that
    neither [Object.entries] nor [JSON.stringify] sees the value. (Object
    literals, spreads, [Object.fromEntries] and [JSON.parse] define own
    properties under every name, this one too.) *)
Definition assign {V} (key : string) (value : V) (obj : gmap string V)
  : gmap string V :=
  if decide (key = proto) then
    match obj !! key with
    | Some _ => <[key := value]> obj
    | None => obj
    end
  else <[key := value]> obj.

Module Core.

(** *** Data *)

(** language code -> source text -> translated text *)
Abbreviation bucket := (gmap string string).
Abbreviation store := (gmap string (gmap string string)).

(** The translations file as [fs.readFile] and [JSON.parse] see it. A
    file that parses holds a document of the persisted shape, an object of
    objects of strings. *)
Inductive file :=
| Missing              (* readFile rejects *)
| Corrupt              (* readFile succeeds, JSON.parse throws *)
| Doc (d : store).     (* a document { lang: { text: translation } } *)

(** The answer of the remote translation API to one [fetch]. *)
Inductive body :=
| NotJson
| Json (translatedText : option string).

Inductive response :=
| NetworkFailure                                   (* fetch rejects *)
| Response (ok : bool) (statusText : string) (b : body).

(** The manager ([translations]) together with the world it acts on: the
    file at [filePath], whether [fs.writeFile] succeeds on it, and two logs
    kept for the statements below (the number of successful calls of
    [fs.writeFile], the calls of [fetch] as (q, target)). The state is the
    one after [initPromise] has settled, which every public method
    awaits. *)
Record state := mkState {
  translations : store;
  disk : file;
  writable : bool;
  writes : nat;
  fetches : list (string * string)
}.

Definition set_translations (m : store) (s : state) : state :=
  mkState m (disk s) (writable s) (writes s) (fetches s).

Definition lookup2 (m : store) (lang text : string) : option string :=
  m !! lang ≫= λ texts, texts !! text.

(** *** initialize *)

(** [Object.entries(translations).forEach(([lang, texts]) =>
      this.translations.set(lang, new Map(Object.entries(texts))))] *)
Definition load_entries (fileTranslations m : store) : store :=
  map_fold (λ lang texts acc, <[lang := texts]> acc) m fileTranslations.

Definition initialize (s : state) : state :=
  match disk s with
  | Missing => s                               (* "{}" : nothing to load *)
  | Corrupt => set_translations ∅ s            (* catch: new Map() *)
  | Doc d => set_translations (load_entries d (translations s)) s
  end.

(** *** checkFileUpdates *)

(** The inner [forEach] over the texts of one language. *)
Definition sync_texts (texts langMap : bucket) : bucket :=
  map_fold (λ text translation acc,
              if decide (acc !! text = Some translation) then acc
              else <[text := translation]> acc) langMap texts.

(** The outer [forEach] over the languages of the file. *)
Definition sync_langs (fileTranslations m : store) : store :=
  map_fold (λ lang texts acc,
              let acc1 := if decide (is_Some (acc !! lang)) then acc
                          else <[lang := ∅]> acc in
              let langMap := default ∅ (acc1 !! lang) in
              <[lang := sync_texts texts langMap]> acc1) m fileTranslations.

Definition checkFileUpdates (s : state) : state :=
  match disk s with
  | Missing | Corrupt => s                     (* catch: logged only *)
  | Doc d => set_translations (sync_langs d (translations s)) s
  end.

(** *** getTranslation *)

Definition getTranslation (text lang : string) (s : state)
  : option string * state :=
  let s1 := checkFileUpdates s in
  (lookup2 (translations s1) lang text, s1).

(** *** saveTranslations *)

(** [mergedData = {...memoryData}], then for every language of the file
    [mergedData[lang] = {...(memoryData[lang] || {}), ...texts}]. *)
Definition merge (currentTranslations memoryData : store) : store :=
  map_fold (λ lang texts mergedData,
              assign lang (spread (default ∅ (memoryData !! lang)) texts)
                     mergedData) memoryData currentTranslations.

Definition save_failed : exception := Error "Failed to save translations".

Definition saveTranslations (s : state) : result unit * state :=
  match disk s with
  | Corrupt => (Throw save_failed, s)
  | f =>
      let currentTranslations := match f with Doc d => d | _ => ∅ end in
      let mergedData := merge currentTranslations (translations s) in
      if writable s then
        let s1 := mkState (translations s) (Doc mergedData) (writable s)
                          (S (writes s)) (fetches s) in
        (Ok tt, initialize s1)
      else (Throw save_failed, s)
  end.

(** *** updateTranslation *)

Definition updateTranslation (text lang translation : string)
    (isUserModified : bool) (s : state) : result unit * state :=
  let s1 := checkFileUpdates s in
  let m1 := if decide (is_Some (translations s1 !! lang))
            then translations s1
            else <[lang := ∅]> (translations s1) in
  let langMap := default ∅ (m1 !! lang) in
  let currentTranslation := langMap !! text in
  if negb (truthy currentTranslation) || isUserModified then
    saveTranslations
      (set_translations (<[lang := <[text := translation]> langMap]> m1) s1)
  else (Ok tt, set_translations m1 s1).

(** *** translateText *)

Definition log_fetch (text lang : string) (s : state) : state :=
  mkState (translations s) (disk s) (writable s) (writes s)
          (fetches s ++ [(text, lang)]).

Definition translateText (remote : response) (text lang : string)
    (s : state) : result string * state :=
  let s1 := checkFileUpdates s in
  let '(cached, s2) := getTranslation text lang s1 in
  if truthy cached then (Ok (default "" cached), s2)
  else
    let s3 := log_fetch text lang s2 in
    match remote with
    | NetworkFailure => (Throw TypeError, s3)   (* response is undefined *)
    | Response false statusText _ =>
        (Throw (Error ("Translation API error: " ++ statusText)), s3)
    | Response true _ NotJson => (Throw SyntaxError, s3)
    | Response true _ (Json translatedText) =>
        if truthy translatedText then
          let t := default "" translatedText in
          match updateTranslation text lang t false s3 with
          | (Ok _, s4) => (Ok t, s4)
          | (Throw e, s4) => (Throw e, s4)
          end
        else (Throw (Error "Invalid API response structure"), s3)
    end.

End Core.

Module Client.

(** *** Strings *)

(** [String.prototype.trim] on strings whose code units are below 256:
    the white space and line terminators of that range are TAB, LF, VT,
    FF, CR, SPACE and NBSP. *)
Definition is_space (c : ascii) : bool :=
  let n := nat_of_ascii c in
  bool_decide (n = 9 ∨ n = 10 ∨ n = 11 ∨ n = 12 ∨ n = 13 ∨ n = 32 ∨ n = 160)%nat.

Fixpoint trimStart (s : string) : string :=
  match s with
  | String c r => if is_space c then trimStart r else s
  | EmptyString => EmptyString
  end.

Fixpoint trimEnd (s : string) : string :=
  match s with
  | String c r =>
      match trimEnd r with
      | EmptyString => if is_space c then EmptyString else String c EmptyString
      | r' => String c r'
      end
  | EmptyString => EmptyString
  end.

Definition trim (s : string) : string := trimEnd (trimStart s).

(** *** The session cache ([TranslationManager] of the component) *)

(** [`${text}:${targetLang}`] *)
Definition getCacheKey (text targetLang : string) : string :=
  text ++ ":" ++ targetLang.

Definition getTranslation (memoryCache : gmap string string)
    (text targetLang : string) : option string :=
  memoryCache !! getCacheKey text targetLang.

Definition setTranslation (memoryCache : gmap string string)
    (text targetLang translation : string) : gmap string string :=
  <[getCacheKey text targetLang := translation]> memoryCache.

(** The module-level [translationManager], with two logs kept for the
    statements below: the calls of [translateText] and the calls of
    [fetch], each as (text, targetLang). *)
Record session := mkSession {
  memoryCache : gmap string string;
  calls : list (string * string);
  fetched : list (string * string)
}.

(** *** A state and exception monad for the asynchronous code *)

Definition M (A : Type) : Type := session → result A * session.

#[global] Instance M_ret : MRet M := λ A a st, (Ok a, st).
#[global] Instance M_bind : MBind M := λ A B k c st,
  match c st with
  | (Ok a, st1) => k a st1
  | (Throw e, st1) => (Throw e, st1)
  end.
Definition throw {A} (e : exception) : M A := λ st, (Throw e, st).

Definition log_call (text targetLang : string) : M unit :=
  λ st, (Ok tt, mkSession (memoryCache st) (calls st ++ [(text, targetLang)])
                          (fetched st)).
Definition log_fetch (text targetLang : string) : M unit :=
  λ st, (Ok tt, mkSession (memoryCache st) (calls st)
                          (fetched st ++ [(text, targetLang)])).
Definition cache_get (text targetLang : string) : M (option string) :=
  λ st, (Ok (getTranslation (memoryCache st) text targetLang), st).
Definition cache_set (text targetLang translation : string) : M unit :=
  λ st, (Ok tt, mkSession (setTranslation (memoryCache st) text targetLang
                                          translation)
                          (calls st) (fetched st)).

(** *** translateText *)

(** The translation endpoint: its answer to a POST of (text, targetLang). *)
Abbreviation endpoint := (string → string → Core.response).

Definition translateText (api : endpoint) (text targetLang : string)
  : M (option string) :=
  log_call text targetLang ;;
  existingTranslation ← cache_get text targetLang;
  if truthy existingTranslation then mret existingTranslation
  else
    log_fetch text targetLang ;;
    match api text targetLang with
    | Core.NetworkFailure => throw TypeError
    | Core.Response false _ _ => mret (Some text)  (* fallback *)
    | Core.Response true _ Core.NotJson => throw SyntaxError
    | Core.Response true _ (Core.Json translatedText) =>
        (if truthy translatedText
         then cache_set text targetLang (default "" translatedText)
         else mret tt) ;;
        mret translatedText
    end.

(** *** The node tree *)

(** A React node. [Null] stands for the empty nodes ([null], [undefined],
    [false]); [tag] stands for everything of an element that the traversal
    leaves alone: its type, its key and its props other than [ignore] and
    [children]. A missing [children] prop is [Null]. *)
#[warnings="-register-all"]
Inductive node :=
| Str (s : string)
| Num (z : Z)
| Null
| Arr (l : list node)
| Elem (tag : string) (ignore : bool) (children : node).

(** Induction over nodes: the case of an array may use the property for
    each of its members. *)
Section node_induction.
Variable P : node → Prop.
Hypothesis HStr : ∀ s, P (Str s).
Hypothesis HNum : ∀ z, P (Num z).
Hypothesis HNull : P Null.
Hypothesis HArr : ∀ l, Forall P l → P (Arr l).
Hypothesis HElem : ∀ tag ignore children,
  P children → P (Elem tag ignore children).

Fixpoint node_nested_ind (n : node) : P n :=
  match n with
  | Str s => HStr s
  | Num z => HNum z
  | Null => HNull
  | Arr l =>
      HArr l ((fix all (l : list node) : Forall P l :=
                 match l with
                 | [] => List.Forall_nil P
                 | x :: r =>
                     List.Forall_cons P x r (node_nested_ind x) (all r)
                 end) l)
  | Elem tag ignore children =>
      HElem tag ignore children (node_nested_ind children)
  end.
End node_induction.

(** Truthiness of [node.props.children]. *)
Definition truthy_node (c : node) : bool :=
  match c with
  | Str s => negb (String.eqb s "")
  | Num z => negb (Z.eqb z 0)
  | Null => false
  | Arr _ | Elem _ _ _ => true
  end.

(** [React.Children]: nested arrays are flattened and the callback is
    applied to every other node in order; nothing is visited when the
    children are [null] or [undefined]. *)
Definition Children_walk {A} (f : node → A) : node → list A :=
  fix walk (c : node) : list A :=
    match c with
    | Arr l =>
        (fix walk_all (l : list node) : list A :=
           match l with
           | [] => []
           | x :: r => (walk x ++ walk_all r)%list
           end) l
    | _ => [f c]
    end.

Definition Children_map {A} (f : node → A) (children : node) : list A :=
  match children with
  | Null => []
  | _ => Children_walk f children
  end.

(** [React.Children.toArray]: the flat array of the non-empty children.
    (It also gives every element a key; keys are part of [tag] and are not
    followed.) *)
Definition is_null (c : node) : bool :=
  match c with
  | Null => true
  | _ => false
  end.

Definition Children_toArray (children : node) : list node :=
  List.filter (λ c, negb (is_null c)) (Children_map id children).

(** *** Pass 1: collect *)

Record item := mkItem { text : string; depth : nat }.

Fixpoint collectTranslations (n : node) (d : nat) : list item :=
  match n with
  | Str s => [mkItem (trim s) d]
  | Elem _ ignore children =>
      if ignore then []
      else if truthy_node children then
        concat (Children_map (λ child, collectTranslations child (S d))
                             children)
      else []
  | _ => []
  end.

(** [translationQueue.sort((a, b) => a.depth - b.depth)]: the sort of an
    array is stable. *)
Fixpoint insert_item (x : item) (l : list item) : list item :=
  match l with
  | [] => [x]
  | y :: r => if (depth x <=? depth y)%nat then x :: l else y :: insert_item x r
  end.

Definition sort_by_depth (l : list item) : list item :=
  foldr insert_item [] l.

(** *** Requests: one per text not yet in [translationMap] *)

Abbreviation translation_map := (gmap string (option string)).

Fixpoint fill (api : endpoint) (lang : string) (queue : list item)
    (translationMap : translation_map) : M translation_map :=
  match queue with
  | [] => mret translationMap
  | it :: rest =>
      if decide (is_Some (translationMap !! text it))
      then fill api lang rest translationMap
      else
        translation ← translateText api (text it) lang;
        fill api lang rest (<[text it := translation]> translationMap)
  end.

(** *** Pass 2: rebuild *)

(** [translationMap.get(s.trim()) || s] *)
Definition substitute (translationMap : translation_map) (s : string)
  : string :=
  let v := translationMap !! trim s ≫= id in
  if truthy v then default "" v else s.

Fixpoint applyTranslations (translationMap : translation_map) (n : node)
  : node :=
  match n with
  | Str s => Str (substitute translationMap s)
  | Elem tag ignore children =>
      if ignore then n
      else if truthy_node children then
        match children with
        | Str s => Elem tag ignore (Str (substitute translationMap s))
        | _ => Elem tag ignore
                 (Arr (Children_map (applyTranslations translationMap)
                                    children))
        end
      else Elem tag ignore children
  | _ => n
  end.

(** *** traverseAndTranslate *)

Definition translationQueue (children : node) : list item :=
  concat (Children_map (λ child, collectTranslations child 0) children).

Definition translate_queue (api : endpoint) (children : node)
    (lang : string) : M translation_map :=
  fill api lang (sort_by_depth (translationQueue children)) ∅.

Definition traverseAndTranslate (api : endpoint) (children : node)
    (lang : string) : M (list node) :=
  translationMap ← translate_queue api children lang;
  match children with
  | Null => throw TypeError           (* Promise.all(null) *)
  | _ => mret (Children_map (applyTranslations translationMap) children)
  end.

(** *** The Translate component *)

(** The identity of the value [null], with which [prevChildrenRef]
    starts. *)
Definition null_ref : nat := 0.

(** The props of one render. [children_ref] is the identity of the
    [children] value: two renders carry the same number exactly when
    [!==] finds their children equal, and a render carries [null_ref]
    exactly when its children are [null]. The endpoint at [apiUrl] is the
    [endpoint] argument of the definitions below. *)
Record props := mkProps {
  children_ref : nat;
  children : node;
  lang : string
}.

(** The hooks of a mounted component: three [useState] cells, two
    [useRef] cells ([prevChildrenRef] holds the identity of the value it
    refers to), and what React keeps for the effect (the dependency array
    [children, lang] of its last run and whether that run returned a
    cleanup function). *)
Record hooks := mkHooks {
  translatedContent : node;
  loading : bool;
  error : option string;
  isMounted : bool;
  prevChildrenRef : nat;
  deps : option (nat * string);
  cleanup : bool
}.

Definition initial (p : props) : hooks :=
  mkHooks (children p) false None true null_ref None false.

(** The body of the effect up to the first [await] of
    [performTranslation]; the boolean tells whether a translation pass
    was started. *)
Definition effect (p : props) (h : hooks) : hooks * bool :=
  let hasChildrenChanged :=
    negb (bool_decide (prevChildrenRef h = children_ref p)) in
  if negb hasChildrenChanged then
    (mkHooks (translatedContent h) (loading h) (error h) true
             (children_ref p) (deps h) false, false)
  else
    (mkHooks (translatedContent h) true None true
             (children_ref p) (deps h) true, true).

(** React after a render with props [p]: the effect runs when a
    dependency changed (always after the first render), after the cleanup
    of the previous run. *)
Definition commit (p : props) (h : hooks) : hooks * bool :=
  if bool_decide (deps h = Some (children_ref p, lang p)) then (h, false)
  else
    let unmounted := if cleanup h then false else isMounted h in
    effect p (mkHooks (translatedContent h) (loading h) (error h) unmounted
                      (prevChildrenRef h)
                      (Some (children_ref p, lang p)) (cleanup h)).

(** The end of [performTranslation]: try / catch / finally on the settled
    traversal. *)
Definition settle (r : result (list node)) (h : hooks) : hooks :=
  let h1 :=
    match r with
    | Ok translated =>
        if isMounted h
        then mkHooks (Arr translated) (loading h) (error h) (isMounted h)
                     (prevChildrenRef h) (deps h) (cleanup h)
        else h
    | Throw _ =>
        if isMounted h
        then mkHooks (translatedContent h) (loading h)
                     (Some "Translation failed.") (isMounted h)
                     (prevChildrenRef h) (deps h) (cleanup h)
        else h
    end in
  if isMounted h1
  then mkHooks (translatedContent h1) false (error h1) (isMounted h1)
               (prevChildrenRef h1) (deps h1) (cleanup h1)
  else h1.

Definition performTranslation (api : endpoint) (p : props) (h : hooks)
    (st : session) : hooks * session :=
  let '(r, st1) :=
    traverseAndTranslate api (Arr (Children_toArray (children p))) (lang p)
                         st in
  (settle r h, st1).

(** One render followed, when a pass was started, by its completion. *)
Definition render (api : endpoint) (p : props) (h : hooks) (st : session)
  : hooks * session :=
  let '(h1, started) := commit p h in
  if started then performTranslation api p h1 st else (h1, st).

(** What the component returns. *)
Definition view (h : hooks) : node :=
  if truthy (error h) then Elem "span" false (Str (default "" (error h)))
  else translatedContent h.

End Client.

(** ** Vocabulary of the statements *)

Module CoreSpec.
Import Core.

(** What a language bucket looks like once the entries of the file have
    been laid over it. *)
Definition overlay (d m : store) (lang : string) : option bucket :=
  match d !! lang with
  | Some texts => Some (texts ∪ default ∅ (m !! lang))
  | None => m !! lang
  end.

(** The document a save starts from: an unreadable file counts as [{}],
    an unparsable one makes the save fail. *)
Definition current_doc (f : file) : option store :=
  match f with
  | Missing => Some ∅
  | Corrupt => None
  | Doc d => Some d
  end.

(** The value the file holds for (lang, text), if it can be read. *)
Definition on_disk (f : file) (lang text : string) : option string :=
  match f with
  | Doc d => lookup2 d lang text
  | _ => None
  end.

(** The merge as the specification words it: per language, the flat union
    of the two text maps in which the in-memory entry wins. *)
Definition memory_first_merge (onDisk inMemory : store) : store :=
  union_with (λ mem dsk, Some (mem ∪ dsk)) inMemory onDisk.

(** The remote call succeeded: an ok response with a non-empty
    [translatedText]. *)
Definition remote_ok (r : response) : bool :=
  match r with
  | Response true _ (Json translatedText) => truthy translatedText
  | _ => false
  end.

(** The in-memory cache already agrees with the file. *)
Definition reconciled (s : state) : Prop := checkFileUpdates s = s.

(** The cache [m] holds every language of the document [d] (whatever it
    holds under it), as it does once it has been reconciled with [d]. *)
Definition covers (m d : store) : Prop :=
  ∀ lang, is_Some (d !! lang) → is_Some (m !! lang).

(** The state [updateTranslation] hands to [saveTranslations] when it
    writes. *)
Definition written (s : state) (text lang translation : string) : state :=
  let s1 := checkFileUpdates s in
  let m1 := if decide (is_Some (translations s1 !! lang))
            then translations s1 else <[lang := ∅]> (translations s1) in
  set_translations
    (<[lang := <[text := translation]> (default ∅ (m1 !! lang))]> m1) s1.
Arguments written : simpl never.

End CoreSpec.

Module ClientSpec.
Import Client.

(** The translatable leaves of a node, in document order: its strings
    outside ignore-marked elements, as the traversal reaches them (an
    element whose [children] prop is falsy has none). *)
Fixpoint leaves (n : node) : list string :=
  match n with
  | Str s => [s]
  | Elem _ ignore children =>
      if ignore then []
      else if truthy_node children
           then concat (Children_map leaves children)
           else []
  | _ => []
  end.

(** The same for a [children] value. *)
Definition leaves_of (children : node) : list string :=
  concat (Children_map leaves children).

(** The ignore-marked elements of a node, outermost first, in document
    order. *)
Fixpoint ignored (n : node) : list node :=
  match n with
  | Elem _ ignore children => if ignore then [n] else ignored children
  | Arr l =>
      (fix ignored_all (l : list node) : list node :=
         match l with
         | [] => []
         | x :: r => (ignored x ++ ignored_all r)%list
         end) l
  | _ => []
  end.

(** What [translateText] settles to for [text], given the session cache
    it finds. *)
Definition answer (api : endpoint) (cache : gmap string string)
    (targetLang text : string) : result (option string) :=
  let existingTranslation := getTranslation cache text targetLang in
  if truthy existingTranslation then Ok existingTranslation
  else match api text targetLang with
       | Core.NetworkFailure => Throw TypeError
       | Core.Response false _ _ => Ok (Some text)
       | Core.Response true _ Core.NotJson => Throw SyntaxError
       | Core.Response true _ (Core.Json translatedText) => Ok translatedText
       end.

(** What a traversal that makes its requests from the session [st] shows
    in place of the leaf [s]: the value [translateText] settles to for the
    trimmed text when that is a non-empty string, the leaf itself
    otherwise. *)
Definition rebuilt_leaf (api : endpoint) (lang : string) (st : session)
    (s : string) : string :=
  match (translateText api (trim s) lang st).1 with
  | Ok (Some v) => if String.eqb v "" then s else v
  | _ => s
  end.

(** The endpoint answered with a response that could be read: the fetch
    was not rejected and an ok response carried JSON. *)
Definition transport_ok (r : Core.response) : bool :=
  match r with
  | Core.NetworkFailure => false
  | Core.Response true _ Core.NotJson => false
  | _ => true
  end.

(** The endpoint answered with a status that is not ok. *)
Definition not_ok (r : Core.response) : bool :=
  match r with
  | Core.Response false _ _ => true
  | _ => false
  end.

(** The two records of the last effect run agree on the children. *)
Definition coherent (h : hooks) : Prop :=
  ∀ r l, deps h = Some (r, l) → prevChildrenRef h = r.

End ClientSpec.

(** ** The rest of the package *)

Module CoreRest.
Import Core.

(** [createTranslationManager(config)]: the constructor starts from an
    empty [Map] and [initPromise] settles to the first load of the file at
    [config.filePath]. *)
Definition createTranslationManager (f : file) (w : bool) : state :=
  initialize (mkState ∅ f w 0 []).

(** The endpoint of the setup guide, [app.post("/translate", ...)]: the
    status of its reply and the two fields its JSON body can carry. *)
Record reply := mkReply {
  status : nat;
  translatedText : option string;
  error_message : option string
}.

(** The message of the 400 reply; [dq] is the double quote. *)
Definition dq : string := String (ascii_of_nat 34) EmptyString.
Definition fields_required : string :=
  "Both " ++ dq ++ "text" ++ dq ++ " and " ++ dq ++ "targetLang" ++ dq
  ++ " fields are required.".

Definition post_translate (remote : response) (text targetLang : option string)
    (s : state) : reply * state :=
  if negb (truthy text) || negb (truthy targetLang) then
    (mkReply 400 None (Some fields_required), s)
  else
    match translateText remote (default "" text) (default "" targetLang) s with
    | (Ok t, s1) => (mkReply 200 (Some t) None, s1)
    | (Throw _, s1) => (mkReply 500 None (Some "Translation failed"), s1)
    end.

(** What [fetch] shows the component of such a reply: [response.ok] is
    true for a status from 200 to 299, and the body is JSON. *)
Definition as_response (r : reply) : response :=
  Response (bool_decide (200 ≤ status r ≤ 299)%nat)
           (match status r with
            | 200 => "OK"
            | 400 => "Bad Request"
            | _ => "Internal Server Error"
            end)
           (Json (translatedText r)).

End CoreRest.

Module ClientRest.
Import Client.

(** React at unmount: the cleanup returned by the last run of the effect,
    if it returned one, sets [isMounted.current = false]. *)
Definition unmount (h : hooks) : hooks :=
  if cleanup h
  then mkHooks (translatedContent h) (loading h) (error h) false
               (prevChildrenRef h) (deps h) (cleanup h)
  else h.

(** The outline of a node in document order: where its elements open and
    close (with their [tag] and ignore mark) and where its strings,
    numbers and empty nodes stand. Arrays leave no mark of their own. *)
Inductive token :=
| TText
| TNumber (z : Z)
| TEmpty
| TOpen (tag : string) (ignore : bool)
| TClose.

Fixpoint outline (n : node) : list token :=
  match n with
  | Str _ => [TText]
  | Num z => [TNumber z]
  | Null => [TEmpty]
  | Arr l =>
      (fix outline_all (l : list node) : list token :=
         match l with
         | [] => []
         | x :: r => (outline x ++ outline_all r)%list
         end) l
  | Elem tag ignore children =>
      (TOpen tag ignore :: outline children ++ [TClose])%list
  end.

(** What the session cache holds for [text] once [translateText] has
    run on it: the entry it found, or the non-empty translation of an ok
    response. *)
Definition cached_after (api : endpoint) (cache : gmap string string)
    (targetLang text : string) : option string :=
  let existingTranslation := getTranslation cache text targetLang in
  if truthy existingTranslation then existingTranslation
  else match api text targetLang with
       | Core.Response true _ (Core.Json translatedText) =>
           if truthy translatedText then translatedText
           else existingTranslation
       | _ => existingTranslation
       end.

(** The string holds no colon (as a language code does not). *)
Fixpoint no_colon (s : string) : bool :=
  match s with
  | String c r => negb (Ascii.eqb c ":"%char) && no_colon r
  | EmptyString => true
  end.

(** The endpoint is the one of the setup guide, in front of some manager
    and some remote API. *)
Definition served_by_guide (api : endpoint) : Prop :=
  ∀ text targetLang, ∃ remote s,
    api text targetLang
    = CoreRest.as_response
        (CoreRest.post_translate remote (Some text) (Some targetLang) s).1.

End ClientRest.

(** ** The server-side manager: what the loops compute *)

Module CoreFacts.
Import Core CoreSpec.

Lemma sync_texts_union (texts langMap : bucket) :
  sync_texts texts langMap = texts ∪ langMap.
Proof.
  unfold sync_texts.
  apply (map_fold_weak_ind (λ r t, r = t ∪ langMap)).
  - by rewrite (left_id_L ∅ (∪)).
  - intros text tr t r Hfresh ->.
    rewrite <- insert_union_l.
    case_decide as Hc; [by rewrite insert_id|done].
Qed.

Lemma sync_langs_lookup (d m : store) (lang : string) :
  sync_langs d m !! lang = overlay d m lang.
Proof.
  unfold sync_langs, overlay. revert lang.
  apply (map_fold_weak_ind (λ r d', ∀ lang,
    r !! lang = match d' !! lang with
                | Some texts => Some (texts ∪ default ∅ (m !! lang))
                | None => m !! lang
                end)).
  - intros lang. by rewrite lookup_empty.
  - intros l texts d' r Hfresh IH lang. cbn zeta.
    pose proof (IH l) as Hl. rewrite Hfresh in Hl.
    destruct (decide (l = lang)) as [->|Hne].
    + rewrite !lookup_insert_eq, sync_texts_union. f_equal. f_equal.
      case_decide as Hs.
      * by rewrite Hl.
      * rewrite lookup_insert_eq. rewrite Hl in Hs.
        destruct (m !! lang) eqn:E; [|done]. exfalso. apply Hs. eauto.
    + rewrite !lookup_insert_ne by done.
      case_decide; [apply IH|]. rewrite lookup_insert_ne by done. apply IH.
Qed.

(** The merged document, language by language: the overlay of the file on
    the cache, except that a language ["__proto__"] which only the file
    holds is lost in the assignment. *)
Lemma merge_lookup_cases (d m : store) (lang : string) :
  merge d m !! lang
  = if decide (lang = proto ∧ m !! lang = None) then None
    else overlay d m lang.
Proof.
  unfold merge, overlay, spread. revert lang.
  apply (map_fold_weak_ind (λ r d', ∀ lang,
    r !! lang = if decide (lang = proto ∧ m !! lang = None) then None
                else match d' !! lang with
                     | Some texts => Some (texts ∪ default ∅ (m !! lang))
                     | None => m !! lang
                     end)).
  - intros lang. rewrite lookup_empty. case_decide as H; [|done].
    by destruct H as [_ ->].
  - intros l texts d' r Hfresh IH lang.
    pose proof (IH l) as Hl. rewrite Hfresh in Hl. unfold assign.
    destruct (decide (l = proto)) as [->|Hp].
    + destruct (r !! proto) as [b|] eqn:Hr.
      * destruct (decide (proto = lang)) as [<-|Hne].
        -- rewrite !lookup_insert_eq. by case_decide.
        -- rewrite !lookup_insert_ne by done. apply IH.
      * destruct (decide (proto = lang)) as [<-|Hne].
        -- rewrite Hr. case_decide as H; [done|].
           exfalso. apply H. by split.
        -- rewrite lookup_insert_ne by done. apply IH.
    + destruct (decide (l = lang)) as [->|Hne].
      * rewrite !lookup_insert_eq. case_decide as H; [|done].
        by destruct H.
      * rewrite !lookup_insert_ne by done. apply IH.
Qed.

(** Once the cache holds every language of the file, as it does after a
    reconciliation, the merge is the plain overlay. *)
Lemma covers_refl (m : store) : covers m m.
Proof. by intros lang. Qed.

Lemma covers_empty (m : store) : covers m ∅.
Proof. intros lang [b Hb]. by rewrite lookup_empty in Hb. Qed.

Lemma covers_insert (m d : store) (lang : string) (b : bucket) :
  covers m d → covers (<[lang := b]> m) d.
Proof.
  intros Hc l Hl. destruct (decide (lang = l)) as [->|Hne].
  - rewrite lookup_insert_eq. eauto.
  - rewrite lookup_insert_ne by done. by apply Hc.
Qed.

Lemma merge_lookup (d m : store) (lang : string) :
  covers m d → merge d m !! lang = overlay d m lang.
Proof.
  intros Hc. rewrite merge_lookup_cases. case_decide as H; [|done].
  destruct H as [_ Hm]. unfold overlay. rewrite Hm.
  destruct (d !! lang) as [texts|] eqn:Hd; [|done].
  destruct (Hc lang) as [b Hb]; [eauto|congruence].
Qed.

Lemma load_entries_union (d m : store) : load_entries d m = d ∪ m.
Proof.
  unfold load_entries.
  apply (map_fold_weak_ind (λ r d', r = d' ∪ m)).
  - by rewrite (left_id_L ∅ (∪)).
  - intros l texts d' r _ ->. by rewrite insert_union_l.
Qed.

(** The document written by a save is what a reconciliation would leave in
    memory. *)
Lemma merge_sync_langs (d m : store) :
  covers m d → merge d m = sync_langs d m.
Proof.
  intros Hc. apply map_eq. intros lang.
  by rewrite merge_lookup, sync_langs_lookup.
Qed.

Lemma covers_sync_langs (d m : store) : covers (sync_langs d m) d.
Proof.
  intros lang [texts Ht]. rewrite sync_langs_lookup. unfold overlay.
  rewrite Ht. eauto.
Qed.

(** *** Lookups after a reconciliation and in a merged document *)

Lemma lookup2_sync_langs (d m : store) (lang text : string) :
  lookup2 (sync_langs d m) lang text
  = lookup2 d lang text ∪ lookup2 m lang text.
Proof.
  unfold lookup2. rewrite sync_langs_lookup. unfold overlay.
  destruct (d !! lang) as [texts|]; simpl.
  - rewrite lookup_union. destruct (m !! lang); simpl; [done|].
    rewrite lookup_empty. by destruct (texts !! text).
  - destruct (m !! lang) as [b|]; simpl; [by destruct (b !! text)|done].
Qed.

Lemma lookup2_merge (d m : store) (lang text : string) :
  covers m d →
  lookup2 (merge d m) lang text = lookup2 d lang text ∪ lookup2 m lang text.
Proof. intros Hc. rewrite merge_sync_langs by done. apply lookup2_sync_langs. Qed.

Lemma sync_langs_idem (d m : store) :
  sync_langs d (sync_langs d m) = sync_langs d m.
Proof.
  apply map_eq. intros lang. rewrite !sync_langs_lookup. unfold overlay.
  rewrite sync_langs_lookup. unfold overlay.
  destruct (d !! lang) as [texts|]; [|done]. simpl.
  by rewrite (assoc_L (∪)), (idemp_L (∪)).
Qed.

Lemma sync_langs_self (d : store) : sync_langs d d = d.
Proof.
  apply map_eq. intros lang. rewrite sync_langs_lookup. unfold overlay.
  destruct (d !! lang) as [texts|]; [|done]. simpl.
  by rewrite (idemp_L (∪)).
Qed.

Lemma checkFileUpdates_idem (s : state) :
  checkFileUpdates (checkFileUpdates s) = checkFileUpdates s.
Proof.
  unfold checkFileUpdates. destruct s as [m [| |d] w n f]; simpl; try done.
  unfold set_translations; simpl. by rewrite sync_langs_idem.
Qed.

(** Every language in memory is a language of the merged document, so the
    reload that ends a save leaves exactly the merged document in memory. *)
Lemma load_entries_merge (d m : store) :
  load_entries (merge d m) m = merge d m.
Proof.
  rewrite load_entries_union. apply map_eq. intros lang.
  rewrite lookup_union, merge_lookup_cases. unfold overlay.
  case_decide as H; [by destruct H as [_ ->]|].
  destruct (d !! lang); destruct (m !! lang); done.
Qed.

Lemma saveTranslations_ok (s : state) (d : store) :
  current_doc (disk s) = Some d → writable s = true →
  saveTranslations s
  = (Ok tt, mkState (merge d (translations s)) (Doc (merge d (translations s)))
                    true (S (writes s)) (fetches s)).
Proof.
  intros Hd Hw. unfold saveTranslations. rewrite Hw.
  destruct (disk s) as [| |d']; simplify_eq/=;
    unfold initialize, set_translations; simpl;
    by rewrite load_entries_merge.
Qed.

Lemma saveTranslations_throws (s : state) :
  current_doc (disk s) = None ∨ writable s = false →
  saveTranslations s = (Throw save_failed, s).
Proof.
  intros [Hd|Hw]; unfold saveTranslations.
  - by destruct (disk s).
  - rewrite Hw. by destruct (disk s).
Qed.

(** *** updateTranslation and translateText, phase by phase *)

Lemma checkFileUpdates_frame (s : state) :
  disk (checkFileUpdates s) = disk s ∧
  writable (checkFileUpdates s) = writable s ∧
  writes (checkFileUpdates s) = writes s ∧
  fetches (checkFileUpdates s) = fetches s.
Proof. unfold checkFileUpdates. by destruct (disk s) eqn:E. Qed.

Lemma checkFileUpdates_lookup (s : state) (lang text : string) :
  lookup2 (translations (checkFileUpdates s)) lang text
  = on_disk (disk s) lang text ∪ lookup2 (translations s) lang text.
Proof.
  unfold checkFileUpdates, on_disk.
  destruct (disk s) as [| |d]; simpl;
    [by destruct (lookup2 _ _ _)..|apply lookup2_sync_langs].
Qed.

(** [if (!this.translations.has(lang)) this.translations.set(lang, new
    Map())] does not change any lookup. *)
Lemma ensure_lang_lookup (m : store) (lang text : string) :
  default ∅ ((if decide (is_Some (m !! lang)) then m
              else <[lang := ∅]> m) !! lang) !! text
  = lookup2 m lang text.
Proof.
  unfold lookup2. case_decide as H.
  - destruct H as [b ->]. done.
  - rewrite lookup_insert_eq. simpl.
    destruct (m !! lang) eqn:E; [exfalso; eauto|]. by rewrite lookup_empty.
Qed.

Lemma ensure_lang_id (m : store) (lang text : string) :
  is_Some (lookup2 m lang text) →
  (if decide (is_Some (m !! lang)) then m else <[lang := ∅]> m) = m.
Proof.
  unfold lookup2. intros [v Hv]. case_decide as H; [done|].
  destruct (m !! lang); [exfalso; eauto|done].
Qed.

Lemma truthy_is_Some (v : option string) : truthy v = true → is_Some v.
Proof. destruct v; [eauto|done]. Qed.

Lemma truthy_Some (v : string) : truthy (Some v) = true ↔ v ≠ "".
Proof.
  simpl. destruct (String.eqb_spec v ""); simpl; split; intros; done.
Qed.

Lemma updateTranslation_keeps (s : state) (text lang translation : string) :
  truthy (lookup2 (translations (checkFileUpdates s)) lang text) = true →
  updateTranslation text lang translation false s
  = (Ok tt, checkFileUpdates s).
Proof.
  intros Ht. unfold updateTranslation. cbn zeta.
  rewrite ensure_lang_lookup, Ht. simpl.
  rewrite (ensure_lang_id _ _ text) by by apply truthy_is_Some.
  by destruct (checkFileUpdates s).
Qed.

Lemma updateTranslation_writes (s : state) (text lang translation : string)
    (isUserModified : bool) :
  negb (truthy (lookup2 (translations (checkFileUpdates s)) lang text))
    || isUserModified = true →
  updateTranslation text lang translation isUserModified s
  = saveTranslations (written s text lang translation).
Proof.
  intros Ht. unfold updateTranslation, written. cbn zeta.
  by rewrite ensure_lang_lookup, Ht.
Qed.

Lemma written_lookup (s : state) (text lang translation : string) :
  lookup2 (translations (written s text lang translation)) lang text
  = Some translation.
Proof.
  unfold written, lookup2. cbn.
  by rewrite lookup_insert_eq; cbn; rewrite lookup_insert_eq.
Qed.

Lemma written_frame (s : state) (text lang translation : string) :
  disk (written s text lang translation) = disk s ∧
  writable (written s text lang translation) = writable s ∧
  writes (written s text lang translation) = writes s ∧
  fetches (written s text lang translation) = fetches s.
Proof. unfold written. cbn. apply checkFileUpdates_frame. Qed.

(** Every save that [updateTranslation] makes starts from a cache that holds
    the languages of the file. *)
Lemma covers_checkFileUpdates (s : state) (d : store) :
  current_doc (disk s) = Some d →
  covers (translations (checkFileUpdates s)) d.
Proof.
  unfold checkFileUpdates.
  destruct (disk s); intros [= <-];
    [apply covers_empty|apply covers_sync_langs].
Qed.

Lemma covers_written (s : state) (d : store) (text lang translation : string) :
  current_doc (disk s) = Some d →
  covers (translations (written s text lang translation)) d.
Proof.
  intros Hd. unfold written. cbn [translations set_translations].
  apply covers_insert.
  case_decide; [|apply covers_insert]; by apply covers_checkFileUpdates.
Qed.

Lemma translateText_hit (r : response) (text lang : string) (s : state) :
  truthy (lookup2 (translations (checkFileUpdates s)) lang text) = true →
  translateText r text lang s
  = (Ok (default "" (lookup2 (translations (checkFileUpdates s)) lang text)),
     checkFileUpdates s).
Proof.
  intros Ht. unfold translateText, getTranslation. cbn zeta.
  by rewrite checkFileUpdates_idem, Ht.
Qed.

Lemma translateText_miss (r : response) (text lang : string) (s : state) :
  truthy (lookup2 (translations (checkFileUpdates s)) lang text) = false →
  translateText r text lang s
  = let s3 := log_fetch text lang (checkFileUpdates s) in
    match r with
    | NetworkFailure => (Throw TypeError, s3)
    | Response false statusText _ =>
        (Throw (Error ("Translation API error: " ++ statusText)), s3)
    | Response true _ NotJson => (Throw SyntaxError, s3)
    | Response true _ (Json translatedText) =>
        if truthy translatedText then
          let t := default "" translatedText in
          match updateTranslation text lang t false s3 with
          | (Ok _, s4) => (Ok t, s4)
          | (Throw e, s4) => (Throw e, s4)
          end
        else (Throw (Error "Invalid API response structure"), s3)
    end.
Proof.
  intros Ht. unfold translateText, getTranslation. cbn zeta.
  by rewrite checkFileUpdates_idem, Ht.
Qed.

(** *** The fetch log *)

Lemma checkFileUpdates_log_fetch (text lang : string) (s : state) :
  checkFileUpdates (log_fetch text lang s)
  = log_fetch text lang (checkFileUpdates s).
Proof.
  unfold checkFileUpdates, log_fetch. simpl.
  by destruct (disk s) eqn:E; simpl; rewrite ?E.
Qed.

Lemma saveTranslations_fetches (s : state) :
  fetches (saveTranslations s).2 = fetches s.
Proof.
  unfold saveTranslations.
  by destruct (disk s), (writable s).
Qed.

Lemma updateTranslation_fetches (s : state) (text lang translation : string)
    (b : bool) :
  fetches (updateTranslation text lang translation b s).2 = fetches s.
Proof.
  destruct (checkFileUpdates_frame s) as (_ & _ & _ & Hf).
  destruct (negb (truthy (lookup2 (translations (checkFileUpdates s))
                                  lang text)) || b) eqn:E.
  - rewrite updateTranslation_writes by done.
    rewrite saveTranslations_fetches.
    by destruct (written_frame s text lang translation) as (_ & _ & _ & ->).
  - unfold updateTranslation. cbn zeta. rewrite ensure_lang_lookup, E.
    simpl. done.
Qed.

Lemma translateText_fetches_miss (r : response) (text lang : string)
    (s : state) :
  truthy (lookup2 (translations (checkFileUpdates s)) lang text) = false →
  fetches (translateText r text lang s).2
  = (fetches s ++ [(text, lang)])%list.
Proof.
  intros Hm. rewrite translateText_miss by done. cbn zeta.
  destruct (checkFileUpdates_frame s) as (_ & _ & _ & Hf).
  assert (fetches (log_fetch text lang (checkFileUpdates s))
          = (fetches s ++ [(text, lang)])%list) as Hlog.
  { unfold log_fetch. cbn [fetches]. by rewrite Hf. }
  destruct r as [|[] st [|tr]]; try done.
  destruct (truthy tr); [|done].
  pose proof (updateTranslation_fetches
                (log_fetch text lang (checkFileUpdates s)) text lang
                (default "" tr) false) as Hu.
  destruct (updateTranslation _ _ _ _ _) as [[[]|e] s4]; simpl in *; congruence.
Qed.

End CoreFacts.

(** ** The server-side manager: the claims *)

Module CoreClaims.
Import Core CoreSpec CoreFacts.

Lemma option_union_Some_l (v : string) (o : option string) :
  Some v ∪ o = Some v.
Proof. by destruct o. Qed.

Lemma option_union_None_l (o : option string) : None ∪ o = o.
Proof. by destruct o. Qed.

(** A user-modified write of a key the file already holds is undone by the
    save: the merged document takes the entry of the file, and the reload
    brings it back into memory. *)
Lemma user_override_lost (s : state) (d : store)
    (text lang translation v : string) :
  disk s = Doc d → lookup2 d lang text = Some v → writable s = true →
  ∃ s', updateTranslation text lang translation true s = (Ok tt, s') ∧
        lookup2 (translations s') lang text = Some v ∧
        on_disk (disk s') lang text = Some v.
Proof.
  intros Hd Hv Hw.
  rewrite updateTranslation_writes by apply orb_true_r.
  destruct (written_frame s text lang translation) as (Hd' & Hw' & _ & _).
  rewrite (saveTranslations_ok _ d) by (by rewrite ?Hd', ?Hw', ?Hd).
  eexists. split; [done|]. simpl.
  rewrite lookup2_merge by (apply covers_written; by rewrite Hd).
  by rewrite Hv, option_union_Some_l.
Qed.

(** C1, evaluated on the code: the file holds "hola" for ("es", "hi");
    updateTranslation("hi", "es", "buenos", true) completes, and both the
    in-memory cache and the file still hold "hola", not the translation
    the user supplied. *)
Theorem updateTranslation_user_modified_is_overridden_by_file :
  let s := mkState {[ "es" := {[ "hi" := "hola" ]} ]}
                   (Doc {[ "es" := {[ "hi" := "hola" ]} ]}) true 0 [] in
  ∃ s', updateTranslation "hi" "es" "buenos" true s = (Ok tt, s') ∧
        lookup2 (translations s') "es" "hi" = Some "hola" ∧
        on_disk (disk s') "es" "hi" = Some "hola" ∧
        lookup2 (translations s') "es" "hi" ≠ Some "buenos" ∧
        writes s' = 1.
Proof.
  cbv zeta. eexists. split; [vm_compute; reflexivity|].
  repeat split; try (vm_compute; reflexivity).
  vm_compute. discriminate.
Qed.

(** When the file does not hold the key, the user-modified write stays. *)
Lemma user_override_kept (s : state) (d : store)
    (text lang translation : string) :
  current_doc (disk s) = Some d → lookup2 d lang text = None →
  writable s = true →
  ∃ s', updateTranslation text lang translation true s = (Ok tt, s') ∧
        lookup2 (translations s') lang text = Some translation ∧
        on_disk (disk s') lang text = Some translation.
Proof.
  intros Hd Hv Hw.
  rewrite updateTranslation_writes by apply orb_true_r.
  destruct (written_frame s text lang translation) as (Hd' & Hw' & _ & _).
  rewrite (saveTranslations_ok _ d) by (by rewrite ?Hd', ?Hw').
  eexists. split; [done|]. cbn [translations disk on_disk].
  rewrite lookup2_merge by by apply covers_written.
  by rewrite Hv, written_lookup.
Qed.

(** C2, evaluated on the code: the file holds "x" for ("fr", "a") and the
    in-memory store holds "y". The save succeeds, and the document it
    writes holds "x": the entry of the file has taken precedence over the
    in-memory entry of the same key, where the claim gives precedence to
    memory ([memory_first_merge] holds "y"). The reload that ends the save
    puts "x" into the cache as well, so the in-memory value is lost on
    both sides. *)
Theorem saveTranslations_memory_does_not_win :
  let m : store := {[ "fr" := {[ "a" := "y" ]} ]} in
  let d : store := {[ "fr" := {[ "a" := "x" ]} ]} in
  let s := mkState m (Doc d) true 0 [] in
  (saveTranslations s).1 = Ok tt ∧
  on_disk (disk (saveTranslations s).2) "fr" "a" = Some "x" ∧
  lookup2 (translations (saveTranslations s).2) "fr" "a" = Some "x" ∧
  lookup2 (memory_first_merge d m) "fr" "a" = Some "y" ∧
  disk (saveTranslations s).2 ≠ Doc (memory_first_merge d m).
Proof.
  cbv zeta. do 4 (split; [vm_compute; reflexivity|]).
  intros H.
  assert (on_disk (disk (saveTranslations
            (mkState {[ "fr" := {[ "a" := "y" ]} ]}
                     (Doc {[ "fr" := {[ "a" := "x" ]} ]}) true 0 [])).2)
            "fr" "a" = Some "y") as H'.
  { rewrite H. vm_compute. reflexivity. }
  vm_compute in H'. discriminate.
Qed.

(** What a save writes in general: when the file can be read (or is not
    found) and written, the document is the merge, to which the cache is
    reloaded; in it an entry of the file wins over the in-memory entry of
    the same key, and entries held by one side only are kept, but for a
    language ["__proto__"] held by the file alone. *)
Lemma saveTranslations_merges_file_first (s : state) (d : store) :
  current_doc (disk s) = Some d → writable s = true →
  ∃ s', saveTranslations s = (Ok tt, s') ∧
        disk s' = Doc (merge d (translations s)) ∧
        translations s' = merge d (translations s) ∧
        ∀ lang text,
          lookup2 (merge d (translations s)) lang text
          = if decide (lang = proto ∧ translations s !! lang = None) then None
            else match lookup2 d lang text with
                 | Some v => Some v
                 | None => lookup2 (translations s) lang text
                 end.
Proof.
  intros Hd Hw. rewrite (saveTranslations_ok s d Hd Hw).
  eexists. split; [done|]. simpl. repeat split.
  intros lang text. unfold lookup2 at 1. rewrite merge_lookup_cases.
  case_decide as H; [done|].
  rewrite <- sync_langs_lookup. fold (lookup2 (sync_langs d (translations s))
                                             lang text).
  rewrite lookup2_sync_langs.
  by destruct (lookup2 d lang text), (lookup2 (translations s) lang text).
Qed.

(** The example of the claim: the file holds {fr:{"a":"x"}}, memory holds
    {fr:{"b":"y"}}; the document written holds both. *)
Lemma saveTranslations_merges_file_first_example :
  let s := mkState {[ "fr" := {[ "b" := "y" ]} ]}
                   (Doc {[ "fr" := {[ "a" := "x" ]} ]}) true 0 [] in
  ∃ s', saveTranslations s = (Ok tt, s') ∧
        on_disk (disk s') "fr" "a" = Some "x" ∧
        on_disk (disk s') "fr" "b" = Some "y".
Proof.
  intros s.
  destruct (saveTranslations_merges_file_first s
              {[ "fr" := {[ "a" := "x" ]} ]} eq_refl eq_refl)
    as (s' & Hs & Hd & _ & Hl).
  exists s'. split; [exact Hs|]. rewrite Hd. simpl. rewrite !Hl.
  split; vm_compute; reflexivity.
Defined.

(** A language ["__proto__"] that the file holds and the cache does not:
    a save called on that state writes a document without it. (The saves
    of [updateTranslation] follow a reconciliation and keep it.) *)
Lemma saveTranslations_loses_proto_language :
  let s := mkState ∅ (Doc {[ proto := {[ "a" := "x" ]} ]}) true 0 [] in
  on_disk (disk s) proto "a" = Some "x" ∧
  saveTranslations s = (Ok tt, mkState ∅ (Doc ∅) true 1 []) ∧
  (saveTranslations (checkFileUpdates s)).1 = Ok tt ∧
  on_disk (disk (saveTranslations (checkFileUpdates s)).2) proto "a"
  = Some "x".
Proof. cbv zeta. repeat split; vm_compute; reflexivity. Qed.

(** C6, against the claim as worded: the cache holds the empty string for
    ("es", "hi") and the file is missing, so an existing value is present
    after reconciliation; updateTranslation("hi", "es", "buenos", false)
    nevertheless writes: the cache and the file end up holding "buenos". *)
Lemma updateTranslation_automated_overwrites_empty :
  let s := mkState {[ "es" := {[ "hi" := "" ]} ]} Missing true 0 [] in
  lookup2 (translations (checkFileUpdates s)) "es" "hi" = Some "" ∧
  ∃ s', updateTranslation "hi" "es" "buenos" false s = (Ok tt, s') ∧
        lookup2 (translations s') "es" "hi" = Some "buenos" ∧
        on_disk (disk s') "es" "hi" = Some "buenos" ∧
        writes s' = 1.
Proof.
  cbv zeta. split; [vm_compute; reflexivity|].
  eexists. split; [vm_compute; reflexivity|].
  repeat split; vm_compute; reflexivity.
Qed.

(** C6 as amended: when a non-empty value is present for (lang, text)
    after reconciliation, updateTranslation with isUserModified = false
    writes nothing: it returns in the reconciled state, the file and the
    count of file writes are as before, and the value is the one that was
    there. *)
Theorem updateTranslation_automated_keeps_existing
    (s : state) (text lang translation v : string) :
  lookup2 (translations (checkFileUpdates s)) lang text = Some v → v ≠ "" →
  ∃ s', updateTranslation text lang translation false s = (Ok tt, s') ∧
        s' = checkFileUpdates s ∧
        disk s' = disk s ∧ writes s' = writes s ∧
        lookup2 (translations s') lang text = Some v.
Proof.
  intros Hv Hne.
  rewrite updateTranslation_keeps by (rewrite Hv; by apply truthy_Some).
  destruct (checkFileUpdates_frame s) as (? & _ & ? & _).
  eexists. by repeat split.
Qed.

(** The example of the claim: the file holds {es:{"hi":"hola"}}; an
    automated upsert of "buenos" is suppressed and the stored value stays
    "hola". *)
Lemma updateTranslation_automated_keeps_existing_example :
  let s := mkState ∅ (Doc {[ "es" := {[ "hi" := "hola" ]} ]}) true 0 [] in
  ∃ s', updateTranslation "hi" "es" "buenos" false s = (Ok tt, s') ∧
        on_disk (disk s') "es" "hi" = Some "hola" ∧
        lookup2 (translations s') "es" "hi" = Some "hola" ∧
        writes s' = 0.
Proof.
  intros s.
  destruct (updateTranslation_automated_keeps_existing s "hi" "es" "buenos"
              "hola") as (s' & Hs & _ & Hd & Hw & Hl).
  - vm_compute. reflexivity.
  - discriminate.
  - exists s'. rewrite Hd, Hw, Hl. split; [exact Hs|].
    repeat split.
Defined.

(** C10: reconciliation never removes an entry of the in-memory cache. An
    entry present before [checkFileUpdates] is present after it; when the
    file does not hold it (it was deleted there) it keeps its value, and a
    save that follows writes it back to the file. *)
Theorem checkFileUpdates_never_removes
    (s : state) (lang text v : string) :
  lookup2 (translations s) lang text = Some v →
  (∃ v', lookup2 (translations (checkFileUpdates s)) lang text = Some v') ∧
  (on_disk (disk s) lang text = None →
   lookup2 (translations (checkFileUpdates s)) lang text = Some v) ∧
  (∀ d, disk s = Doc d → lookup2 d lang text = None → writable s = true →
        ∃ s', saveTranslations (checkFileUpdates s) = (Ok tt, s') ∧
              on_disk (disk s') lang text = Some v ∧
              lookup2 (translations s') lang text = Some v).
Proof.
  intros Hv. rewrite checkFileUpdates_lookup, Hv.
  split; [|split].
  - destruct (on_disk (disk s) lang text); eauto.
  - by intros ->.
  - intros d Hd Hnone Hw.
    destruct (checkFileUpdates_frame s) as (Hd' & Hw' & _ & _).
    rewrite (saveTranslations_ok _ d) by (by rewrite ?Hd', ?Hw', ?Hd).
    eexists. split; [done|]. cbn [translations disk on_disk].
    rewrite lookup2_merge by (apply covers_checkFileUpdates; by rewrite Hd).
    rewrite Hnone, checkFileUpdates_lookup, Hd, Hv.
    cbn [on_disk]. by rewrite Hnone.
Qed.

(** An entry deleted from the file: memory holds {es:{"hi":"hola",
    "bye":"adios"}}, the file only {es:{"bye":"adios"}}. *)
Lemma checkFileUpdates_never_removes_example :
  let s := mkState {[ "es" := {[ "hi" := "hola"; "bye" := "adios" ]} ]}
                   (Doc {[ "es" := {[ "bye" := "adios" ]} ]}) true 0 [] in
  lookup2 (translations (checkFileUpdates s)) "es" "hi" = Some "hola" ∧
  ∃ s', saveTranslations (checkFileUpdates s) = (Ok tt, s') ∧
        on_disk (disk s') "es" "hi" = Some "hola".
Proof.
  intros s.
  destruct (checkFileUpdates_never_removes s "es" "hi" "hola")
    as (_ & Hkeep & Hsave).
  - vm_compute. reflexivity.
  - split.
    + apply Hkeep. vm_compute. reflexivity.
    + destruct (Hsave {[ "es" := {[ "bye" := "adios" ]} ]})
        as (s' & Hs & Hd & _).
      * reflexivity.
      * vm_compute. reflexivity.
      * reflexivity.
      * exists s'. split; [exact Hs|exact Hd].
Defined.

(** C5, against the claim as worded: the file holds an entry that the
    cache has not taken in yet (it was added to the file by hand), and the
    remote call for another text fails. [translateText] rejects and the
    file is as before, but the in-memory cache is not: the reconciliation
    that precedes the lookup has brought the entry of the file into it. *)
Lemma translateText_remote_failure_reconciles_cache :
  let s := mkState ∅ (Doc {[ "es" := {[ "bye" := "adios" ]} ]}) true 0 [] in
  let out := translateText NetworkFailure "hi" "es" s in
  out.1 = Throw TypeError ∧
  lookup2 (translations s) "es" "bye" = None ∧
  lookup2 (translations out.2) "es" "bye" = Some "adios" ∧
  translations out.2 ≠ translations s ∧
  disk out.2 = disk s ∧ writes out.2 = writes s.
Proof.
  cbv zeta. do 3 (split; [vm_compute; reflexivity|]).
  split; [|split; vm_compute; reflexivity].
  intros H.
  assert (lookup2 (translations (translateText NetworkFailure "hi" "es"
            (mkState ∅ (Doc {[ "es" := {[ "bye" := "adios" ]} ]}) true 0
                     [])).2) "es" "bye" = None) as H'.
  { rewrite H. vm_compute. reflexivity. }
  vm_compute in H'. discriminate.
Qed.

(** C5 as amended: when the cache misses and the remote call fails (the
    fetch is rejected, the response is not ok, its body is not JSON, or it
    carries no non-empty translatedText), translateText rejects, and the
    failed call stores nothing: the file and the count of file writes are
    as before, and the in-memory cache is exactly what the reconciliation
    that precedes the lookup made of it. That is, every key reads as the
    file holds it, or else as the cache held it; the cache is unchanged
    when it already agreed with the file; and the text is still a miss
    after the call. *)
Theorem translateText_remote_failure_stores_nothing
    (s : state) (r : response) (text lang : string) :
  truthy (lookup2 (translations (checkFileUpdates s)) lang text) = false →
  remote_ok r = false →
  ∃ e s', translateText r text lang s = (Throw e, s') ∧
          translations s' = translations (checkFileUpdates s) ∧
          disk s' = disk s ∧ writes s' = writes s ∧
          fetches s' = (fetches s ++ [(text, lang)])%list ∧
          (reconciled s → translations s' = translations s) ∧
          (∀ lang' text',
             lookup2 (translations s') lang' text'
             = on_disk (disk s) lang' text'
               ∪ lookup2 (translations s) lang' text') ∧
          truthy (lookup2 (translations s') lang text) = false.
Proof.
  intros Hm Hr. rewrite translateText_miss by done. cbn zeta.
  destruct (checkFileUpdates_frame s) as (Hd & _ & Hw & Hf).
  assert (∀ e, ∃ e' s',
    (Throw e : result string, log_fetch text lang (checkFileUpdates s))
    = (Throw e', s') ∧
    translations s' = translations (checkFileUpdates s) ∧
    disk s' = disk s ∧ writes s' = writes s ∧
    fetches s' = (fetches s ++ [(text, lang)])%list ∧
    (reconciled s → translations s' = translations s) ∧
    (∀ lang' text',
       lookup2 (translations s') lang' text'
       = on_disk (disk s) lang' text'
         ∪ lookup2 (translations s) lang' text') ∧
    truthy (lookup2 (translations s') lang text) = false) as Hall.
  { intros e. eexists _, _. split; [done|].
    unfold log_fetch. cbn [translations disk writes fetches].
    rewrite Hf. do 4 (split; [done|]). split; [by intros ->|].
    split; [|done]. intros. apply checkFileUpdates_lookup. }
  destruct r as [|[] st [|tr]]; try apply Hall.
  simpl in Hr. rewrite Hr. apply Hall.
Qed.

(** The cache agrees with the file and the network is down: the call
    rejects and cache and file are as they were. *)
Lemma translateText_remote_failure_example :
  let s := mkState {[ "es" := {[ "bye" := "adios" ]} ]}
                   (Doc {[ "es" := {[ "bye" := "adios" ]} ]}) true 0 [] in
  ∃ e s', translateText NetworkFailure "hi" "es" s = (Throw e, s') ∧
          translations s' = translations s ∧ disk s' = disk s ∧
          writes s' = 0.
Proof.
  intros s.
  destruct (translateText_remote_failure_stores_nothing s NetworkFailure
              "hi" "es") as (e & s' & Hs & _ & Hd & Hw & _ & Hrec & _).
  - vm_compute. reflexivity.
  - reflexivity.
  - exists e, s'. split; [exact Hs|]. split; [|split; [exact Hd|exact Hw]].
    apply Hrec. unfold reconciled, checkFileUpdates, set_translations.
    cbn [disk s translations writable writes fetches].
    by rewrite sync_langs_self.
Defined.

(** C4: (1) when the cache holds a non-empty translation after
    reconciliation, translateText returns it and calls the remote API
    zero times; (2) when a call has returned a value and the file did not
    hold the empty string for the key, a second call on the state the
    first one left returns the same value with no further remote call;
    (3) a cached empty string is a miss: the call goes to the remote API,
    and (4) when it is the file that holds the empty string it still holds
    it afterwards, so every later call goes to the remote API again. *)
Theorem translateText_cache_hit_idempotent (text lang : string) :
  (∀ s r v,
     lookup2 (translations (checkFileUpdates s)) lang text = Some v →
     v ≠ "" →
     ∃ s', translateText r text lang s = (Ok v, s') ∧
           fetches s' = fetches s) ∧
  (∀ s r1 r2 v s1,
     translateText r1 text lang s = (Ok v, s1) →
     on_disk (disk s) lang text ≠ Some "" →
     ∃ s2, translateText r2 text lang s1 = (Ok v, s2) ∧
           fetches s2 = fetches s1) ∧
  (∀ s r,
     lookup2 (translations (checkFileUpdates s)) lang text = Some "" →
     fetches (translateText r text lang s).2
     = (fetches s ++ [(text, lang)])%list) ∧
  (∀ s r,
     on_disk (disk s) lang text = Some "" →
     fetches (translateText r text lang s).2
     = (fetches s ++ [(text, lang)])%list ∧
     on_disk (disk (translateText r text lang s).2) lang text = Some "").
Proof.
  split; [|split; [|split]].
  - intros s r v Hv Hne.
    rewrite translateText_hit by (rewrite Hv; by apply truthy_Some).
    rewrite Hv. eexists. split; [done|].
    by destruct (checkFileUpdates_frame s) as (_ & _ & _ & ->).
  - intros s r1 r2 v s1 Hcall Hdisk.
    destruct (truthy (lookup2 (translations (checkFileUpdates s)) lang text))
      eqn:Hc.
    + (* the first call was a hit *)
      rewrite translateText_hit in Hcall by done.
      injection Hcall as <- <-.
      rewrite translateText_hit by (by rewrite checkFileUpdates_idem).
      rewrite checkFileUpdates_idem. eexists. split; done.
    + (* the first call went to the remote API and stored its answer *)
      rewrite translateText_miss in Hcall by done. cbn zeta in Hcall.
      destruct r1 as [|[] st [|tr]]; try done.
      destruct (truthy tr) eqn:Htr; [|done].
      set (s3 := log_fetch text lang (checkFileUpdates s)) in *.
      assert (checkFileUpdates s3 = s3) as Hrec.
      { unfold s3. by rewrite checkFileUpdates_log_fetch,
          checkFileUpdates_idem. }
      assert (translations s3 = translations (checkFileUpdates s)) as Htr3
        by done.
      rewrite updateTranslation_writes in Hcall
        by (by rewrite Hrec, Htr3, Hc).
      pose proof (written_lookup s3 text lang (default "" tr)) as Hwl.
      destruct (written_frame s3 text lang (default "" tr))
        as (Hd3 & _ & _ & _).
      pose proof (λ d, covers_written s3 d text lang (default "" tr)) as Hcov.
      rewrite <- Hd3 in Hcov.
      remember (written s3 text lang (default "" tr)) as w eqn:Hwdef.
      clear Hwdef.
      destruct (current_doc (disk w)) as [d|] eqn:Hd;
        [|by rewrite saveTranslations_throws in Hcall by eauto].
      destruct (writable w) eqn:Hw;
        [|by rewrite saveTranslations_throws in Hcall by eauto].
      rewrite (saveTranslations_ok _ d) in Hcall by done.
      injection Hcall as <- <-.
      set (m := merge d (translations w)).
      assert (lookup2 m lang text = Some (default "" tr)) as Hm.
      { unfold m. rewrite lookup2_merge, Hwl by by apply Hcov.
        destruct (lookup2 d lang text) as [x|] eqn:Hx; [|done].
        exfalso.
        rewrite Hd3 in Hd.
        destruct (checkFileUpdates_frame s) as (Hd0 & _ & _ & _).
        assert (disk s3 = disk s) as Hds by done.
        rewrite Hds in Hd.
        rewrite checkFileUpdates_lookup in Hc.
        destruct (disk s) as [| |d0] eqn:Hdisk0; simplify_eq/=.
        rewrite Hx in Hc, Hdisk.
        rewrite option_union_Some_l in Hc.
        destruct (decide (x = "")) as [->|Hn]; [done|].
        apply truthy_Some in Hn. congruence. }
      assert (checkFileUpdates (mkState m (Doc m) true (S (writes w))
                                        (fetches w))
              = mkState m (Doc m) true (S (writes w)) (fetches w)) as Hfix.
      { unfold checkFileUpdates, set_translations. cbn.
        by rewrite sync_langs_self. }
      rewrite translateText_hit
        by (rewrite Hfix; cbn [translations]; rewrite Hm; by destruct tr).
      rewrite Hfix. cbn [translations]. rewrite Hm. eexists. split; done.
  - intros s r Hv. apply translateText_fetches_miss. by rewrite Hv.
  - intros s r Hdisk.
    assert (truthy (lookup2 (translations (checkFileUpdates s)) lang text)
            = false) as Hc
      by (by rewrite checkFileUpdates_lookup, Hdisk, option_union_Some_l).
    split; [by apply translateText_fetches_miss|].
    rewrite translateText_miss by done. cbn zeta.
    destruct (checkFileUpdates_frame s) as (Hd0 & _ & _ & _).
    set (s3 := log_fetch text lang (checkFileUpdates s)).
    assert (disk s3 = disk s) as Hds by done.
    destruct r as [|[] st [|tr]]; cbn [snd]; rewrite ?Hds; try done.
    destruct (truthy tr); cbn [snd]; rewrite ?Hds; [|done].
    assert (checkFileUpdates s3 = s3) as Hrec.
    { unfold s3. by rewrite checkFileUpdates_log_fetch,
        checkFileUpdates_idem. }
    rewrite updateTranslation_writes by (by rewrite Hrec; cbn; rewrite Hc).
    destruct (written_frame s3 text lang (default "" tr))
      as (Hd3 & Hw3 & _ & _).
    destruct (disk s) as [| |d] eqn:Hdisk0; try done.
    assert (current_doc (disk (written s3 text lang (default "" tr)))
            = Some d) as Hcur by (by rewrite Hd3, Hds).
    destruct (writable (written s3 text lang (default "" tr))) eqn:Hw.
    + rewrite (saveTranslations_ok _ d) by done.
      cbn [snd disk on_disk] in *.
      rewrite lookup2_merge
        by (apply covers_written; by rewrite Hds).
      by rewrite Hdisk, option_union_Some_l.
    + rewrite saveTranslations_throws by eauto. cbn [snd].
      by rewrite Hd3, Hds.
Qed.

(** A hit served twice from the file's entry, and a file holding the
    empty string that sends the call to the remote API and keeps holding
    it. *)
Lemma translateText_cache_hit_idempotent_example :
  let s := mkState ∅ (Doc {[ "es" := {[ "Hi" := "Hola" ]} ]}) true 0 [] in
  let e := mkState ∅ (Doc {[ "es" := {[ "Hi" := "" ]} ]}) true 0 [] in
  let hola := Response true "OK" (Json (Some "Hola")) in
  (∃ s1, translateText NetworkFailure "Hi" "es" s = (Ok "Hola", s1) ∧
         fetches s1 = [] ∧
         ∃ s2, translateText NetworkFailure "Hi" "es" s1 = (Ok "Hola", s2) ∧
               fetches s2 = fetches s1) ∧
  fetches (translateText hola "Hi" "es" e).2 = [("Hi", "es")] ∧
  on_disk (disk (translateText hola "Hi" "es" e).2) "es" "Hi" = Some "".
Proof.
  intros s e hola.
  destruct (translateText_cache_hit_idempotent "Hi" "es")
    as (Hhit & Htwice & _ & Hempty).
  split.
  - destruct (Hhit s NetworkFailure "Hola") as (s1 & Hs1 & Hf1).
    + vm_compute. reflexivity.
    + discriminate.
    + exists s1. split; [exact Hs1|]. split; [exact Hf1|].
      apply (Htwice s NetworkFailure NetworkFailure "Hola" s1 Hs1).
      vm_compute. discriminate.
  - apply (Hempty e hola). vm_compute. reflexivity.
Defined.

(** The scenario of a first translation: no file yet; translateText("Hi",
    "es") asks the remote API, gets "Hola", and the file then holds
    {"es":{"Hi":"Hola"}}. *)
Example translateText_first_translation :
  let s := mkState ∅ Missing true 0 [] in
  let r := translateText (Response true "OK" (Json (Some "Hola"))) "Hi" "es"
                         s in
  r.1 = Ok "Hola" ∧ disk r.2 = Doc {[ "es" := {[ "Hi" := "Hola" ]} ]} ∧
  fetches r.2 = [("Hi", "es")] ∧ writes r.2 = 1.
Proof. cbv zeta. repeat split; vm_compute; reflexivity. Qed.

End CoreClaims.

(** ** The tree translator: traversal facts *)

Module ClientFacts.
Import Client ClientSpec.

(** *** React.Children *)

Lemma Children_walk_Arr {A} (f : node → A) (l : list node) :
  Children_walk f (Arr l) = flat_map (Children_walk f) l.
Proof.
  simpl. induction l as [|x r IH]; [done|]. simpl. by rewrite IH.
Qed.

Lemma Children_walk_leaf {A} (f : node → A) (c : node) :
  (∀ l, c ≠ Arr l) → Children_walk f c = [f c].
Proof. intros H. destruct c; try done. by destruct (H l). Qed.

Lemma Children_walk_map {A} (f : node → A) (c : node) :
  Children_walk f c = map f (Children_walk id c).
Proof.
  induction c as [| | |l IH|] using node_nested_ind; try done.
  rewrite !Children_walk_Arr.
  induction IH as [|x r Hx _ IHr]; [done|].
  simpl. by rewrite map_app, Hx, IHr.
Qed.

Lemma Children_map_truthy {A} (f : node → A) (c : node) :
  truthy_node c = true → Children_map f c = map f (Children_walk id c).
Proof.
  intros Ht. rewrite <- Children_walk_map. by destruct c.
Qed.

Lemma Children_map_map {A} (f : node → A) (c : node) :
  Children_map f c = map f (Children_map id c).
Proof. destruct c; try done; apply Children_walk_map. Qed.

(** The callback of [React.Children] never receives an array. *)
Lemma Children_walk_no_Arr (c : node) :
  Forall (λ x, ∀ l, x ≠ Arr l) (Children_walk id c).
Proof.
  induction c as [| | |l IH|] using node_nested_ind;
    try (rewrite Children_walk_leaf by done; by repeat constructor).
  rewrite Children_walk_Arr.
  induction IH as [|x r Hx _ IHr]; [constructor|].
  simpl. by apply Forall_app.
Qed.

(** Induction in which the case of an element may use the property for
    every node the callback of [React.Children] receives. *)
Lemma node_walk_ind (P : node → Prop) :
  (∀ s, P (Str s)) → (∀ z, P (Num z)) → P Null → (∀ l, P (Arr l)) →
  (∀ tag ignore children,
     Forall P (Children_walk id children) → P (Elem tag ignore children)) →
  ∀ n, P n.
Proof.
  intros HStr HNum HNull HArr HElem n.
  cut (P n ∧ Forall P (Children_walk id n)); [by intros []|].
  assert (∀ c, (∀ l, c ≠ Arr l) → P c →
               P c ∧ Forall P (Children_walk id c)) as Hleaf.
  { intros c Hc Hp. split; [done|].
    rewrite Children_walk_leaf by done. by repeat constructor. }
  induction n as [| | |l IH|tag ig c [_ IH]] using node_nested_ind.
  - by apply Hleaf.
  - by apply Hleaf.
  - by apply Hleaf.
  - split; [done|]. rewrite Children_walk_Arr.
    induction IH as [|x r [_ Hx] _ IHr]; [constructor|].
    simpl. by apply Forall_app.
  - apply Hleaf; [done|]. by apply HElem.
Qed.

(** *** Pass 1 collects the trimmed leaves *)

Lemma ignored_Arr (l : list node) : ignored (Arr l) = flat_map ignored l.
Proof.
  simpl. induction l as [|x r IH]; [done|]. simpl. by rewrite IH.
Qed.

Lemma concat_map_Forall {A B} (f g : A → list B) (h : B → B) (l : list A) :
  Forall (λ x, f x = map h (g x)) l →
  concat (map f l) = map h (concat (map g l)).
Proof.
  induction 1 as [|x r Hx _ IH]; [done|].
  simpl. by rewrite map_app, Hx, IH.
Qed.

Lemma collect_texts (n : node) (d : nat) :
  map text (collectTranslations n d) = map trim (leaves n).
Proof.
  revert d. induction n as [| | | |tag ig c IH] using node_walk_ind;
    intros d; try done.
  simpl. destruct ig; [done|]. destruct (truthy_node c) eqn:Ht; [|done].
  rewrite !Children_map_truthy by done.
  rewrite concat_map, map_map.
  induction IH as [|x r Hx _ IHr]; [done|].
  simpl. by rewrite map_app, Hx, IHr.
Qed.

Lemma translationQueue_texts (children : node) :
  map text (translationQueue children) = map trim (leaves_of children).
Proof.
  unfold translationQueue, leaves_of.
  rewrite (Children_map_map (λ child, collectTranslations child 0)),
    (Children_map_map leaves).
  rewrite concat_map, map_map.
  induction (Children_map id children) as [|x r IH]; [done|].
  simpl. by rewrite map_app, collect_texts, IH.
Qed.

(** *** Pass 2 rewrites the leaves and nothing under an ignore mark *)

Lemma substitute_nonempty (m : translation_map) (s : string) :
  s ≠ "" → substitute m s ≠ "".
Proof.
  intros Hs. unfold substitute.
  destruct (m !! trim s ≫= id) as [v|] eqn:E; [|done]. simpl.
  destruct (String.eqb_spec v ""); done.
Qed.

Lemma applyTranslations_no_Arr (m : translation_map) (n : node) :
  (∀ l, n ≠ Arr l) → ∀ l, applyTranslations m n ≠ Arr l.
Proof.
  intros Hn l. destruct n as [| | |l0|tag ig c]; try done.
  simpl. destruct ig; [done|].
  destruct (truthy_node c); [|done]. by destruct c.
Qed.

Lemma leaves_Elem (tag : string) (c : node) :
  leaves (Elem tag false c)
  = if truthy_node c then concat (Children_map leaves c) else [].
Proof. done. Qed.

Lemma Children_map_Arr {A} (f : node → A) (l : list node) :
  Children_map f (Arr l) = flat_map (Children_walk f) l.
Proof. apply Children_walk_Arr. Qed.

Lemma leaves_apply (m : translation_map) (n : node) :
  leaves (applyTranslations m n) = map (substitute m) (leaves n).
Proof.
  induction n as [| | | |tag ig c IH] using node_walk_ind; try done.
  simpl. destruct ig; [done|].
  destruct (truthy_node c) eqn:Ht; [|by simpl; rewrite Ht].
  assert (leaves (Elem tag false
            (Arr (Children_map (applyTranslations m) c)))
          = map (substitute m) (concat (Children_map leaves c))) as Harr.
  { rewrite leaves_Elem. cbn [truthy_node].
    rewrite Children_map_Arr, !Children_map_truthy by done.
    pose proof (Children_walk_no_Arr c) as Hno.
    induction IH as [|x r Hx _ IHr]; [done|].
    apply Forall_cons in Hno as [Hx' Hr'].
    simpl. rewrite map_app, <- IHr by done.
    rewrite Children_walk_leaf by by apply applyTranslations_no_Arr.
    simpl. by rewrite Hx. }
  destruct c as [s| | | |]; try exact Harr.
  simpl. simpl in Ht.
  destruct (String.eqb_spec (substitute m s) "") as [He|_]; [|done].
  exfalso. revert He. apply substitute_nonempty.
  by destruct (String.eqb_spec s "").
Qed.

Lemma flat_map_ignored_walk (c : node) :
  flat_map ignored (Children_walk id c) = ignored c.
Proof.
  induction c as [| | |l IH|] using node_nested_ind;
    try (simpl; by rewrite ?app_nil_r).
  rewrite Children_walk_Arr, ignored_Arr.
  induction IH as [|x r Hx _ IHr]; [done|].
  simpl. by rewrite flat_map_app, Hx, IHr.
Qed.

Lemma ignored_Elem (tag : string) (c : node) :
  ignored (Elem tag false c) = ignored c.
Proof. done. Qed.

Lemma ignored_apply (m : translation_map) (n : node) :
  ignored (applyTranslations m n) = ignored n.
Proof.
  induction n as [| | | |tag ig c IH] using node_walk_ind; try done.
  simpl. destruct ig; [done|].
  destruct (truthy_node c) eqn:Ht; [|done].
  assert (ignored (Elem tag false
            (Arr (Children_map (applyTranslations m) c)))
          = ignored c) as Harr.
  { rewrite ignored_Elem, ignored_Arr, Children_map_truthy by done.
    rewrite <- (flat_map_ignored_walk c).
    induction IH as [|x r Hx _ IHr]; [done|].
    simpl. by rewrite Hx, IHr. }
  by destruct c; try exact Harr.
Qed.

(** *** The depth sort only reorders the queue *)

Lemma insert_item_perm (x : item) (l : list item) :
  insert_item x l ≡ₚ x :: l.
Proof.
  induction l as [|y r IH]; [done|]. simpl.
  destruct (depth x <=? depth y)%nat; [done|].
  by rewrite IH, Permutation_swap.
Qed.

Lemma sort_by_depth_perm (l : list item) : sort_by_depth l ≡ₚ l.
Proof.
  induction l as [|x r IH]; [done|]. simpl.
  by rewrite insert_item_perm, IH.
Qed.

Lemma insert_item_sorted (x : item) (l : list item) :
  Sorted (λ a b, (depth a <= depth b)%nat) l →
  Sorted (λ a b, (depth a <= depth b)%nat) (insert_item x l).
Proof.
  induction 1 as [|y r Hr IH Hy]; simpl; [by repeat constructor|].
  destruct (Nat.leb_spec (depth x) (depth y)) as [Hle|Hlt].
  - repeat constructor; done.
  - constructor; [done|].
    destruct r as [|z r]; simpl in *.
    + constructor. lia.
    + destruct (depth x <=? depth z)%nat; constructor; [lia|].
      by inversion Hy.
Qed.

Lemma sort_by_depth_sorted (l : list item) :
  Sorted (λ a b, (depth a <= depth b)%nat) (sort_by_depth l).
Proof.
  induction l as [|x r IH]; [constructor|].
  by apply insert_item_sorted.
Qed.

Example sort_by_depth_stable :
  sort_by_depth [mkItem "c" 2; mkItem "a" 1; mkItem "d" 2; mkItem "b" 1]
  = [mkItem "a" 1; mkItem "b" 1; mkItem "c" 2; mkItem "d" 2].
Proof. reflexivity. Qed.

Example trim_examples :
  trim "  Hello world " = "Hello world" ∧ trim "Hello" = "Hello" ∧
  trim "   " = "" ∧ trim "" = "".
Proof. repeat split. Qed.

Lemma sorted_queue_texts (children : node) (t : string) :
  t ∈ map text (sort_by_depth (translationQueue children))
  ↔ t ∈ map trim (leaves_of children).
Proof.
  rewrite <- translationQueue_texts.
  by rewrite (sort_by_depth_perm (translationQueue children)).
Qed.

(** *** One request *)

Lemma length_append (s1 s2 : string) :
  String.length (s1 ++ s2) = (String.length s1 + String.length s2)%nat.
Proof. induction s1 as [|c s1 IH]; [done|]. simpl. by rewrite IH. Qed.

Lemma append_cancel_r (s1 s2 x : string) : s1 ++ x = s2 ++ x → s1 = s2.
Proof.
  revert s2. induction s1 as [|c s1 IH]; intros [|c2 s2] H; simpl in H.
  - done.
  - apply (f_equal String.length) in H.
    rewrite !length_append in H. simpl in H. lia.
  - apply (f_equal String.length) in H.
    rewrite !length_append in H. simpl in H. lia.
  - injection H as -> H. f_equal. by apply IH.
Qed.

(** For one target language, different texts have different cache keys. *)
Lemma getCacheKey_inj (t1 t2 lang : string) :
  getCacheKey t1 lang = getCacheKey t2 lang → t1 = t2.
Proof. unfold getCacheKey. apply append_cancel_r. Qed.

Lemma translateText_spec (api : endpoint) (t lang : string) (st : session) :
  ∃ st', translateText api t lang st
         = (answer api (memoryCache st) lang t, st') ∧
         calls st' = (calls st ++ [(t, lang)])%list ∧
         (∀ k, k ≠ getCacheKey t lang →
               memoryCache st' !! k = memoryCache st !! k) ∧
         fetched st'
         = if truthy (getTranslation (memoryCache st) t lang)
           then fetched st else (fetched st ++ [(t, lang)])%list.
Proof.
  unfold translateText, answer, mbind, M_bind, log_call, cache_get. simpl.
  destruct (truthy (getTranslation (memoryCache st) t lang)) eqn:Hc.
  { eexists. split; [done|]. simpl. eauto. }
  unfold log_fetch.
  destruct (api t lang) as [|[] sttxt [|tr]]; simpl;
    try (eexists; split; [done|]; simpl; by eauto).
  destruct (truthy tr); simpl.
  - eexists. split; [done|]. simpl. split; [done|]. split; [|done].
    intros k Hk. unfold setTranslation. by rewrite lookup_insert_ne.
  - eexists. split; [done|]. simpl. eauto.
Qed.

Lemma translateText_result (api : endpoint) (t lang : string) (st : session) :
  (translateText api t lang st).1 = answer api (memoryCache st) lang t.
Proof. by destruct (translateText_spec api t lang st) as (st' & -> & _). Qed.

Lemma translateText_cache_frame (api : endpoint) (t lang : string)
    (st : session) (k : string) :
  k ≠ getCacheKey t lang →
  memoryCache (translateText api t lang st).2 !! k = memoryCache st !! k.
Proof.
  destruct (translateText_spec api t lang st) as (st' & -> & _ & Hc & _).
  apply Hc.
Qed.

(** *** The requests of a traversal *)

Lemma fill_calls (api : endpoint) (lang : string) (queue : list item) :
  ∀ (m : translation_map) (st : session),
  ∃ new, calls (fill api lang queue m st).2 = (calls st ++ new)%list ∧
         NoDup new ∧
         (∀ c, c ∈ new → ∃ t, c = (t, lang) ∧ t ∈ map text queue ∧
                              m !! t = None) ∧
         (∀ m', (fill api lang queue m st).1 = Ok m' →
                ∀ t, t ∈ map text queue → m !! t = None →
                     (t, lang) ∈ new).
Proof.
  induction queue as [|it rest IH]; intros m st.
  { exists []. simpl. rewrite app_nil_r.
    repeat split; [constructor|by intros ? ?%elem_of_nil|].
    by intros ? _ ? ?%elem_of_nil. }
  simpl. case_decide as Hin.
  - destruct (IH m st) as (new & Hc & Hnd & Hsub & Hall).
    exists new. repeat split; [done..| |].
    + intros c Hcn. destruct (Hsub c Hcn) as (t & -> & Ht & Hm).
      exists t. repeat split; [|done]. by right.
    + intros m' Hm' t Ht Hnone. apply (Hall m' Hm'); [|done].
      apply elem_of_cons in Ht as [->|Ht]; [|done].
      destruct Hin as [? Hin]. congruence.
  - assert (m !! text it = None) as Hnone
      by (destruct (m !! text it); [exfalso; eauto|done]).
    unfold mbind, M_bind.
    destruct (translateText_spec api (text it) lang st)
      as (st1 & -> & Hcalls & _ & _).
    destruct (answer api (memoryCache st) lang (text it)) as [v|e].
    + destruct (IH (<[text it := v]> m) st1) as (new & Hc & Hnd & Hsub & Hall).
      exists ((text it, lang) :: new). rewrite Hc, Hcalls, <- app_assoc.
      split; [done|]. split; [|split].
      * constructor; [|done]. intros Hcn.
        destruct (Hsub _ Hcn) as (t & [= <-] & _ & Hm).
        by rewrite lookup_insert_eq in Hm.
      * intros c [->|Hcn]%elem_of_cons.
        { exists (text it). repeat split; [by left|done]. }
        destruct (Hsub c Hcn) as (t & -> & Ht & Hm).
        exists t. split; [done|]. split; [by right|].
        destruct (decide (text it = t)) as [<-|Hne].
        { by rewrite lookup_insert_eq in Hm. }
        by rewrite lookup_insert_ne in Hm.
      * intros m' Hm' t Ht Htn.
        destruct (decide (t = text it)) as [->|Hne]; [by left|].
        right. apply (Hall m' Hm').
        { by apply elem_of_cons in Ht as [->|Ht]. }
        by rewrite lookup_insert_ne.
    + exists [(text it, lang)]. simpl. split; [done|].
      split; [apply NoDup_singleton|]. split; [|done].
      intros c ->%list_elem_of_singleton.
      exists (text it). repeat split; [by left|done].
Qed.

Lemma miss_stable (lang t t0 : string) (st st1 : session) :
  (∀ k, k ≠ getCacheKey t0 lang →
        memoryCache st1 !! k = memoryCache st !! k) →
  t ≠ t0 →
  getTranslation (memoryCache st1) t lang
  = getTranslation (memoryCache st) t lang.
Proof.
  intros Hcache Hne. unfold getTranslation. apply Hcache.
  intros Hk. by apply getCacheKey_inj in Hk.
Qed.

Lemma fill_fetched (api : endpoint) (lang : string) (queue : list item) :
  ∀ (m : translation_map) (st : session),
  ∃ newf, fetched (fill api lang queue m st).2 = (fetched st ++ newf)%list ∧
          NoDup newf ∧
          (∀ c, c ∈ newf →
                ∃ t, c = (t, lang) ∧ t ∈ map text queue ∧ m !! t = None ∧
                     truthy (getTranslation (memoryCache st) t lang) = false) ∧
          (∀ m', (fill api lang queue m st).1 = Ok m' →
                 ∀ t, t ∈ map text queue → m !! t = None →
                      truthy (getTranslation (memoryCache st) t lang) = false →
                      (t, lang) ∈ newf).
Proof.
  induction queue as [|it rest IH]; intros m st.
  { exists []. simpl. rewrite app_nil_r.
    repeat split; [constructor|by intros ? ?%elem_of_nil|].
    by intros ? _ ? ?%elem_of_nil. }
  simpl. case_decide as Hin.
  - destruct (IH m st) as (newf & Hf & Hnd & Hsub & Hall).
    exists newf. repeat split; [done..| |].
    + intros c Hcn. destruct (Hsub c Hcn) as (t & -> & Ht & Hm & Hmiss).
      exists t. repeat split; [|done..]. by right.
    + intros m' Hm' t Ht Hnone Hmiss. apply (Hall m' Hm'); [|done..].
      apply elem_of_cons in Ht as [->|Ht]; [|done].
      destruct Hin as [? Hin]. congruence.
  - assert (m !! text it = None) as Hnone
      by (destruct (m !! text it); [exfalso; eauto|done]).
    unfold mbind, M_bind.
    destruct (translateText_spec api (text it) lang st)
      as (st1 & -> & _ & Hcache & Hfetch).
    set (head := if truthy (getTranslation (memoryCache st) (text it) lang)
                 then [] else [(text it, lang)]).
    assert (fetched st1 = (fetched st ++ head)%list) as Hf1.
    { rewrite Hfetch. unfold head. destruct (truthy _); [|done].
      by rewrite app_nil_r. }
    assert (∀ c, c ∈ head →
              c = (text it, lang) ∧
              truthy (getTranslation (memoryCache st) (text it) lang) = false)
      as Hhead.
    { unfold head. intros c. destruct (truthy _).
      - by intros ?%elem_of_nil.
      - by intros ->%list_elem_of_singleton. }
    assert (NoDup head) as Hndh.
    { unfold head. destruct (truthy _); [constructor|apply NoDup_singleton]. }
    destruct (answer api (memoryCache st) lang (text it)) as [v|e].
    + destruct (IH (<[text it := v]> m) st1)
        as (newf & Hf & Hnd & Hsub & Hall).
      exists (head ++ newf)%list. rewrite Hf, Hf1, <- app_assoc.
      split; [done|]. split; [|split].
      * apply NoDup_app. split; [done|]. split; [|done].
        intros c [-> _]%Hhead Hcn.
        destruct (Hsub _ Hcn) as (t & [= <-] & _ & Hm & _).
        by rewrite lookup_insert_eq in Hm.
      * intros c [Hc|Hcn]%elem_of_app.
        { destruct (Hhead c Hc) as [-> Hmiss].
          exists (text it). repeat split; [by left|done..]. }
        destruct (Hsub c Hcn) as (t & -> & Ht & Hm & Hmiss).
        assert (t ≠ text it) as Hne.
        { intros ->. by rewrite lookup_insert_eq in Hm. }
        exists t. split; [done|]. split; [by right|].
        rewrite lookup_insert_ne in Hm by done. split; [done|].
        by rewrite <- (miss_stable lang t (text it) st st1).
      * intros m' Hm' t Ht Htn Hmiss.
        apply elem_of_app.
        destruct (decide (t = text it)) as [->|Hne].
        { left. unfold head. rewrite Hmiss. by left. }
        right. apply (Hall m' Hm').
        { by apply elem_of_cons in Ht as [->|Ht]. }
        { by rewrite lookup_insert_ne. }
        by rewrite (miss_stable lang t (text it) st st1).
    + exists head. simpl. split; [done|]. split; [done|]. split; [|done].
      intros c [-> Hmiss]%Hhead.
      exists (text it). repeat split; [by left|done..].
Qed.

Lemma fill_values (api : endpoint) (lang : string) (queue : list item) :
  ∀ (m m' : translation_map) (st st' : session),
  fill api lang queue m st = (Ok m', st') →
  (∀ t v, m !! t = Some v → m' !! t = Some v) ∧
  (∀ t, m !! t = None → t ∈ map text queue →
        ∃ v, answer api (memoryCache st) lang t = Ok v ∧ m' !! t = Some v) ∧
  (∀ t, m !! t = None → t ∉ map text queue → m' !! t = None).
Proof.
  induction queue as [|it rest IH]; intros m m' st st' Hfill.
  { injection Hfill as <- <-. repeat split; [done| |done].
    by intros ? _ ?%elem_of_nil. }
  simpl in Hfill. case_decide as Hin.
  - destruct (IH _ _ _ _ Hfill) as (Hkeep & Hnew & Hout).
    repeat split; [done| |].
    + intros t Hm [->|Ht]%elem_of_cons; [|by apply Hnew].
      destruct Hin as [? Hin]. congruence.
    + intros t Hm Ht. apply Hout; [done|].
      intros Hr. apply Ht. by right.
  - assert (m !! text it = None) as Hnone
      by (destruct (m !! text it); [exfalso; eauto|done]).
    unfold mbind, M_bind in Hfill.
    destruct (translateText_spec api (text it) lang st)
      as (st1 & Hcall & _ & Hcache & _).
    rewrite Hcall in Hfill.
    destruct (answer api (memoryCache st) lang (text it)) as [v|e] eqn:Hans;
      [|done].
    destruct (IH _ _ _ _ Hfill) as (Hkeep & Hnew & Hout).
    repeat split.
    + intros t w Hm. apply Hkeep.
      rewrite lookup_insert_ne; [done|]. congruence.
    + intros t Hm Ht.
      destruct (decide (t = text it)) as [->|Hne].
      { exists v. split; [done|]. apply Hkeep. by rewrite lookup_insert_eq. }
      destruct (Hnew t) as (w & Hw & Hm').
      { by rewrite lookup_insert_ne. }
      { by apply elem_of_cons in Ht as [->|Ht]. }
      exists w. split; [|done]. rewrite <- Hw.
      unfold answer, getTranslation.
      rewrite Hcache; [done|].
      intros Hk. by apply getCacheKey_inj in Hk.
    + intros t Hm Ht. apply Hout.
      * rewrite lookup_insert_ne; [done|].
        intros <-. apply Ht. by left.
      * intros Hr. apply Ht. by right.
Qed.

Lemma answer_ok (api : endpoint) (cache : gmap string string)
    (lang t : string) :
  transport_ok (api t lang) = true →
  ∃ v, answer api cache lang t = Ok v.
Proof.
  unfold answer. destruct (truthy _); [eauto|].
  destruct (api t lang) as [|[] ? [|tr]]; simpl; eauto; done.
Qed.

Lemma answer_frame (api : endpoint) (lang t t0 : string)
    (c c1 : gmap string string) :
  (∀ k, k ≠ getCacheKey t0 lang → c1 !! k = c !! k) → t ≠ t0 →
  answer api c1 lang t = answer api c lang t.
Proof.
  intros Hc Hne. unfold answer, getTranslation.
  rewrite Hc; [done|]. intros Hk. by apply getCacheKey_inj in Hk.
Qed.

(** [fill] completes when every text it has to request gets an answer. *)
Lemma fill_ok_answers (api : endpoint) (lang : string) (queue : list item) :
  ∀ (m : translation_map) (st : session),
  (∀ t, t ∈ map text queue → m !! t = None →
        ∃ v, answer api (memoryCache st) lang t = Ok v) →
  ∃ m' st', fill api lang queue m st = (Ok m', st').
Proof.
  induction queue as [|it rest IH]; intros m st Hok; [by eexists _, _|].
  simpl. case_decide as Hin.
  - apply IH. intros t Ht. apply Hok. by right.
  - assert (m !! text it = None) as Hnone
      by (destruct (m !! text it); [exfalso; eauto|done]).
    unfold mbind, M_bind.
    pose proof (translateText_result api (text it) lang st) as Hres.
    pose proof (translateText_cache_frame api (text it) lang st) as Hfr.
    destruct (translateText api (text it) lang st) as [r st1];
      cbn [fst snd] in *.
    destruct (Hok (text it)) as [v Hv]; [by left|done|].
    rewrite Hres, Hv. apply IH. intros t Ht Hm.
    assert (t ≠ text it) as Hne.
    { intros ->. by rewrite lookup_insert_eq in Hm. }
    rewrite lookup_insert_ne in Hm by done.
    rewrite (answer_frame api lang t (text it) (memoryCache st)
               (memoryCache st1)) by done.
    apply Hok; [by right|done].
Qed.

Lemma fill_ok (api : endpoint) (lang : string) (queue : list item) :
  (∀ t, t ∈ map text queue → transport_ok (api t lang) = true) →
  ∀ (m : translation_map) (st : session),
  ∃ m' st', fill api lang queue m st = (Ok m', st').
Proof.
  induction queue as [|it rest IH]; intros Hok m st; [by eexists _, _|].
  simpl. case_decide as Hin.
  - apply IH. intros t Ht. apply Hok. by right.
  - unfold mbind, M_bind.
    destruct (translateText_spec api (text it) lang st) as (st1 & -> & _).
    destruct (answer_ok api (memoryCache st) lang (text it)) as [v ->].
    { apply Hok. by left. }
    apply IH. intros t Ht. apply Hok. by right.
Qed.

End ClientFacts.

(** ** The tree translator: the claims *)

Module ClientClaims.
Import Client ClientSpec ClientFacts.

Lemma traverseAndTranslate_unfold (api : endpoint) (children : node)
    (lang : string) (st : session) :
  traverseAndTranslate api children lang st
  = match fill api lang (sort_by_depth (translationQueue children)) ∅ st with
    | (Ok m, st1) =>
        match children with
        | Null => (Throw TypeError, st1)
        | _ => (Ok (Children_map (applyTranslations m) children), st1)
        end
    | (Throw e, st1) => (Throw e, st1)
    end.
Proof.
  unfold traverseAndTranslate, translate_queue, mbind, M_bind.
  destruct (fill _ _ _ _ _) as [[m|e] st1]; [|done]. by destruct children.
Qed.

Lemma traverseAndTranslate_Ok (api : endpoint) (children : node)
    (lang : string) (st : session) (out : list node) :
  (traverseAndTranslate api children lang st).1 = Ok out →
  ∃ m st1,
    fill api lang (sort_by_depth (translationQueue children)) ∅ st
    = (Ok m, st1) ∧
    traverseAndTranslate api children lang st = (Ok out, st1) ∧
    out = map (applyTranslations m) (Children_map id children).
Proof.
  rewrite traverseAndTranslate_unfold.
  destruct (fill _ _ _ _ _) as [[m|e] st1]; [|done].
  intros H. exists m, st1. split; [done|].
  rewrite <- Children_map_map.
  destruct children; simpl in *; by simplify_eq.
Qed.

Lemma rebuilt_leaves (m : translation_map) (children : node) :
  concat (map leaves (map (applyTranslations m) (Children_map id children)))
  = map (substitute m) (leaves_of children).
Proof.
  unfold leaves_of. rewrite (Children_map_map leaves).
  induction (Children_map id children) as [|x r IH]; [done|].
  simpl. by rewrite map_app, leaves_apply, IH.
Qed.

(** The translation map of a completed traversal holds, for the trimmed
    text of every leaf, what [translateText] settled to from the session
    the traversal started in. *)
Lemma fill_substitute (api : endpoint) (children : node) (lang : string)
    (st st1 : session) (m : translation_map) :
  fill api lang (sort_by_depth (translationQueue children)) ∅ st
  = (Ok m, st1) →
  ∀ s, s ∈ leaves_of children →
       substitute m s = rebuilt_leaf api lang st s.
Proof.
  intros Hfill s Hs.
  destruct (fill_values _ _ _ _ _ _ _ Hfill) as (_ & Hnew & _).
  destruct (Hnew (trim s)) as (v & Hans & Hm); [done| |].
  { apply sorted_queue_texts, list_elem_of_fmap. eauto. }
  unfold substitute, rebuilt_leaf.
  rewrite translateText_result, Hans, Hm. cbn.
  destruct v as [v|]; [|done]. cbn. by destruct (String.eqb v "").
Qed.

Lemma traversal_leaves (api : endpoint) (children : node) (lang : string)
    (st : session) (out : list node) :
  (traverseAndTranslate api children lang st).1 = Ok out →
  concat (map leaves out)
  = map (rebuilt_leaf api lang st) (leaves_of children).
Proof.
  intros Hout.
  destruct (traverseAndTranslate_Ok _ _ _ _ _ Hout)
    as (m & st1 & Hfill & _ & ->).
  rewrite rebuilt_leaves. apply map_ext_in. intros s Hs.
  apply (fill_substitute _ _ _ _ _ _ Hfill). by apply list_elem_of_In.
Qed.

(** A request that fails at transport level and is not served by the
    session cache aborts the traversal. *)
Lemma traversal_aborts (api : endpoint) (children : node) (lang : string)
    (st : session) (s : string) :
  s ∈ leaves_of children →
  transport_ok (api (trim s) lang) = false →
  truthy (getTranslation (memoryCache st) (trim s) lang) = false →
  (∃ e, (translateText api (trim s) lang st).1 = Throw e) ∧
  ∃ e, (traverseAndTranslate api children lang st).1 = Throw e.
Proof.
  intros Hs Hfail Hmiss.
  assert (∃ e, answer api (memoryCache st) lang (trim s) = Throw e) as [e He].
  { unfold answer. rewrite Hmiss.
    destruct (api (trim s) lang) as [|[] ? [|tr]]; try done; eauto. }
  split; [rewrite translateText_result; eauto|].
  rewrite traverseAndTranslate_unfold.
  destruct (fill _ _ _ _ _) as [[m|e'] st1] eqn:Hfill; [|eauto].
  exfalso.
  destruct (fill_values _ _ _ _ _ _ _ Hfill) as (_ & Hnew & _).
  destruct (Hnew (trim s)) as (v & Hans & _); [done| |congruence].
  apply sorted_queue_texts, list_elem_of_fmap. eauto.
Qed.

Lemma filter_eq_absent {A} `{EqDecision A} (x : A) (l : list A) :
  x ∉ l → filter (x =.) l = [].
Proof.
  induction l as [|y r IH]; [done|].
  intros Hx. apply not_elem_of_cons in Hx as [Hxy Hr].
  rewrite filter_cons. case_decide; [done|]. by apply IH.
Qed.

Lemma filter_eq_once {A} `{EqDecision A} (x : A) (l : list A) :
  NoDup l → x ∈ l → length (filter (x =.) l) = 1%nat.
Proof.
  induction 1 as [|y r Hy Hr IH]; [by intros ?%elem_of_nil|].
  intros Hx. rewrite filter_cons. case_decide as Hxy.
  - subst y. by rewrite filter_eq_absent.
  - apply IH. by apply elem_of_cons in Hx as [?|?].
Qed.

(** C7: in every traversal [translateText] is called at most once per
    text, and only for trimmed leaves outside ignore-marked subtrees; so
    is the endpoint. When the traversal completes, every such trimmed
    text was requested exactly once however often it occurs (with one
    HTTP request when the session cache did not hold it, none when it
    did), and the leaves of the rebuilt tree are, one by one and in
    document order, the leaves of the input with each one replaced by the
    translation obtained for its trimmed text ([rebuilt_leaf]: the leaf
    itself when that translation is missing or empty). So two leaves with
    the same trimmed text, wherever they stand and at whatever depth, show
    the same translated value. *)
Theorem traversal_requests_each_text_once
    (api : endpoint) (children : node) (lang : string) (st : session) :
  let run := traverseAndTranslate api children lang st in
  let cached s := truthy (getTranslation (memoryCache st) (trim s) lang) in
  ∃ new newf,
    calls run.2 = (calls st ++ new)%list ∧
    fetched run.2 = (fetched st ++ newf)%list ∧
    NoDup new ∧ NoDup newf ∧
    (∀ c, c ∈ new → ∃ s, s ∈ leaves_of children ∧ c = (trim s, lang)) ∧
    (∀ c, c ∈ newf → ∃ s, s ∈ leaves_of children ∧ c = (trim s, lang) ∧
                          cached s = false) ∧
    ∀ out, run.1 = Ok out →
      (∀ s, s ∈ leaves_of children →
            length (filter ((trim s, lang) =.) new) = 1%nat ∧
            length (filter ((trim s, lang) =.) newf)
            = if cached s then 0%nat else 1%nat) ∧
      concat (map leaves out)
      = map (rebuilt_leaf api lang st) (leaves_of children) ∧
      (∀ i j s s' v,
         leaves_of children !! i = Some s →
         leaves_of children !! j = Some s' →
         trim s = trim s' →
         (translateText api (trim s) lang st).1 = Ok (Some v) → v ≠ "" →
         concat (map leaves out) !! i = Some v ∧
         concat (map leaves out) !! j = Some v).
Proof.
  intros run cached.
  destruct (fill_calls api lang (sort_by_depth (translationQueue children))
              ∅ st) as (new & Hcalls & Hnd & Hsub & Hall).
  destruct (fill_fetched api lang (sort_by_depth (translationQueue children))
              ∅ st) as (newf & Hfetched & Hndf & Hsubf & Hallf).
  assert (calls run.2 = calls (fill api lang (sort_by_depth
            (translationQueue children)) ∅ st).2 ∧
          fetched run.2 = fetched (fill api lang (sort_by_depth
            (translationQueue children)) ∅ st).2) as [Hc Hf].
  { unfold run. rewrite traverseAndTranslate_unfold.
    destruct (fill _ _ _ _ _) as [[m|e] st1]; [|done]. by destruct children. }
  exists new, newf. rewrite Hc, Hf.
  do 4 (split; [done|]). split; [|split].
  - intros c Hcn. destruct (Hsub c Hcn) as (t & -> & Ht & _).
    apply sorted_queue_texts, list_elem_of_fmap in Ht as (s & -> & Hs).
    eauto.
  - intros c Hcn. destruct (Hsubf c Hcn) as (t & -> & Ht & _ & Hmiss).
    apply sorted_queue_texts, list_elem_of_fmap in Ht as (s & -> & Hs).
    eauto.
  - intros out Hout.
    pose proof (traversal_leaves _ _ _ _ _ Hout) as Hleaves.
    destruct (traverseAndTranslate_Ok _ _ _ _ _ Hout)
      as (m & st1 & Hfill & _ & ->).
    split; [|split; [exact Hleaves|]].
    + intros s Hs.
      assert (trim s ∈ map text (sort_by_depth (translationQueue children)))
        as Hq by (apply sorted_queue_texts, list_elem_of_fmap; eauto).
      split.
      * apply filter_eq_once; [done|].
        apply (Hall m); [by rewrite Hfill|done..].
      * destruct (cached s) eqn:Hcached.
        -- rewrite filter_eq_absent; [done|].
           intros Hin. destruct (Hsubf _ Hin) as (t & [= <-] & _ & _ & Hmiss).
           unfold cached in Hcached. congruence.
        -- apply filter_eq_once; [done|].
           apply (Hallf m); [by rewrite Hfill|done..].
    + intros i j s s' v Hi Hj Htrim Hv Hne.
      assert (rebuilt_leaf api lang st s = v ∧
              rebuilt_leaf api lang st s' = v) as [Hs Hs'].
      { unfold rebuilt_leaf. rewrite <- Htrim, Hv.
        by destruct (String.eqb_spec v ""). }
      rewrite Hleaves, !list_lookup_fmap, Hi, Hj. cbn. by rewrite Hs, Hs'.
Qed.

(** "Hello" in three places outside an ignore mark (once with white space
    around it) and once under one: one call, one HTTP request, and the
    three leaves become "Hola". *)
Lemma traversal_requests_each_text_once_example :
  let api : endpoint :=
    λ _ _, Core.Response true "OK" (Core.Json (Some "Hola")) in
  let tree :=
    Arr [ Elem "h1" false (Str "Hello");
          Elem "div" false
            (Arr [ Str " Hello ";
                   Elem "p" false (Str "Hello");
                   Elem "code" true (Str "Hello") ]) ] in
  let run := traverseAndTranslate api tree "es" (mkSession ∅ [] []) in
  ∃ new newf,
    calls run.2 = new ∧ fetched run.2 = newf ∧
    length (filter (("Hello", "es") =.) new) = 1%nat ∧
    length (filter (("Hello", "es") =.) newf) = 1%nat ∧
    ∃ out, run.1 = Ok out ∧
           concat (map leaves out) = ["Hola"; "Hola"; "Hola"].
Proof.
  intros api tree run.
  destruct (traversal_requests_each_text_once api tree "es"
              (mkSession ∅ [] []))
    as (new & newf & Hcalls & Hfetched & _ & _ & _ & _ & Hok).
  exists new, newf. split; [exact Hcalls|]. split; [exact Hfetched|].
  destruct (Hok [ Elem "h1" false (Str "Hola");
                  Elem "div" false
                    (Arr [ Str "Hola";
                           Elem "p" false (Str "Hola");
                           Elem "code" true (Str "Hello") ]) ])
    as (Hone & Hleaves & _).
  { vm_compute. reflexivity. }
  destruct (Hone "Hello") as [Hcall Hfetch].
  { vm_compute. apply list_elem_of_here. }
  split; [exact Hcall|]. split; [exact Hfetch|].
  eexists. split; [vm_compute; reflexivity|].
  rewrite Hleaves. vm_compute. reflexivity.
Defined.

(** C8: an element carrying the ignore property queues nothing at any
    depth and is returned as it is by the rebuild, whatever the
    translation map (hence whatever the language); a traversal of it
    alone makes no request and returns it; and for every tree, the
    ignore-marked subtrees of the rebuilt tree are those of the input,
    identical and in the same order. *)
Theorem ignored_subtree_passes_through (tag : string) (children : node) :
  let e := Elem tag true children in
  (∀ d, collectTranslations e d = []) ∧
  leaves e = [] ∧
  (∀ m, applyTranslations m e = e) ∧
  (∀ api lang st, traverseAndTranslate api (Arr [e]) lang st = (Ok [e], st)) ∧
  (∀ m n, ignored (applyTranslations m n) = ignored n) ∧
  (∀ api c lang st out,
     (traverseAndTranslate api c lang st).1 = Ok out →
     flat_map ignored out = ignored c).
Proof.
  cbv zeta. repeat split; try done.
  - intros m n. apply ignored_apply.
  - intros api c lang st out Hout.
    destruct (traverseAndTranslate_Ok _ _ _ _ _ Hout)
      as (m & st1 & _ & Hrun & ->).
    assert (c ≠ Null) as Hc.
    { intros ->. by rewrite traverseAndTranslate_unfold in Hout;
        destruct (fill _ _ _ _ _) as [[]]. }
    assert (Children_map (@id node) c = Children_walk id c) as ->
      by by destruct c.
    rewrite <- (flat_map_ignored_walk c).
    induction (Children_walk id c) as [|x r IH]; [done|].
    simpl. by rewrite ignored_apply, IH.
Qed.

(** A page with an ignore-marked block inside a translated one. *)
Lemma ignored_subtree_passes_through_example :
  let api : endpoint :=
    λ _ _, Core.Response true "OK" (Core.Json (Some "Hola")) in
  let keep := Elem "code" true (Arr [Str "Hello"; Elem "b" false (Str "Hello")]) in
  let tree := Arr [ Elem "div" false (Arr [Str "Hello"; keep]) ] in
  ∃ out, (traverseAndTranslate api tree "es" (mkSession ∅ [] [])).1 = Ok out ∧
         out = [ Elem "div" false (Arr [Str "Hola"; keep]) ] ∧
         flat_map ignored out = [keep].
Proof.
  intros api keep tree.
  destruct (ignored_subtree_passes_through "code"
              (Arr [Str "Hello"; Elem "b" false (Str "Hello")]))
    as (_ & _ & _ & _ & _ & Hframe).
  eexists. split; [vm_compute; reflexivity|]. split; [reflexivity|].
  apply (Hframe api tree "es" (mkSession ∅ [] [])).
  vm_compute. reflexivity.
Defined.

(** *** The component *)

Lemma commit_same_children (p : props) (h : hooks) :
  prevChildrenRef h = children_ref p → (commit p h).2 = false.
Proof.
  intros Hprev. unfold commit. case_bool_decide; [done|].
  unfold effect. cbn [prevChildrenRef]. rewrite Hprev.
  by rewrite bool_decide_eq_true_2.
Qed.

Lemma commit_changed_children (p : props) (h : hooks) :
  coherent h → prevChildrenRef h ≠ children_ref p →
  (commit p h).2 = true ∧
  loading (commit p h).1 = true ∧ error (commit p h).1 = None ∧
  isMounted (commit p h).1 = true ∧
  translatedContent (commit p h).1 = translatedContent h.
Proof.
  intros Hco Hprev. unfold commit. case_bool_decide as Hd.
  { exfalso. apply Hprev. by apply (Hco _ _ Hd). }
  unfold effect. cbn [prevChildrenRef].
  by rewrite bool_decide_eq_false_2.
Qed.

Lemma commit_started (p : props) (h : hooks) :
  (commit p h).2 = true →
  loading (commit p h).1 = true ∧ error (commit p h).1 = None ∧
  isMounted (commit p h).1 = true.
Proof.
  unfold commit. case_bool_decide; [done|]. unfold effect.
  cbn [prevChildrenRef]. by case_bool_decide.
Qed.

Lemma coherent_initial (p : props) : coherent (initial p).
Proof. done. Qed.

(** The first run of the effect compares the children with the [null]
    that [prevChildrenRef] starts with: a component mounted with [null]
    children starts no pass, any other one does. *)
Lemma first_render_starts_pass (p : props) :
  (commit p (initial p)).2 = negb (bool_decide (children_ref p = null_ref)).
Proof.
  unfold commit, initial, effect. cbn.
  rewrite bool_decide_eq_false_2 by done.
  repeat case_bool_decide; cbn; congruence.
Qed.

Example first_render_of_null_children :
  let api : endpoint := λ _ _, Core.NetworkFailure in
  let p := mkProps null_ref Null "es" in
  render api p (initial p) (mkSession ∅ [] [])
  = (mkHooks Null false None true null_ref (Some (null_ref, "es")) false,
     mkSession ∅ [] []).
Proof. reflexivity. Qed.

Lemma coherent_commit (p : props) (h : hooks) :
  coherent h → coherent (commit p h).1.
Proof.
  unfold coherent, commit. intros Hco. case_bool_decide; [done|].
  unfold effect. cbn [prevChildrenRef deps].
  case_bool_decide; cbn [fst prevChildrenRef deps]; by intros r l [= <- _].
Qed.

Lemma coherent_settle (r : result (list node)) (h : hooks) :
  coherent h → coherent (settle r h).
Proof.
  unfold coherent, settle. intros Hco.
  by destruct r, (isMounted h) eqn:E; cbn; rewrite ?E.
Qed.

Lemma settle_Ok (out : list node) (h : hooks) :
  isMounted h = true →
  settle (Ok out) h
  = mkHooks (Arr out) false (error h) true (prevChildrenRef h) (deps h)
            (cleanup h).
Proof. intros Hm. unfold settle. rewrite Hm. cbn. by rewrite ?Hm. Qed.

Lemma settle_Throw (e : exception) (h : hooks) :
  isMounted h = true →
  settle (Throw e) h
  = mkHooks (translatedContent h) false (Some "Translation failed.") true
            (prevChildrenRef h) (deps h) (cleanup h).
Proof. intros Hm. unfold settle. rewrite Hm. cbn. by rewrite ?Hm. Qed.

(** C3, against the claim as worded, on two points. (1) The fetch for the
    only leaf is rejected (a network failure): [translateText] rethrows
    instead of returning the text, and the component ends in the error
    state, showing the error in place of the tree. (2) The endpoint
    answers 503 for a leaf with white space around it: [translateText]
    returns the text it was given, which is the trimmed text, and the
    leaf is rebuilt from it, so the original text is not shown
    unchanged. *)
Lemma network_failure_reaches_error_state :
  let down : endpoint := λ _ _, Core.NetworkFailure in
  let unavailable : endpoint :=
    λ _ _, Core.Response false "Service Unavailable" Core.NotJson in
  let p := mkProps 1 (Elem "p" false (Str "Hello")) "es" in
  let q := mkProps 1 (Elem "p" false (Str "  Hello ")) "es" in
  let st := mkSession ∅ [] [] in
  ((translateText down "Hello" "es" st).1 = Throw TypeError ∧
   error (render down p (initial p) st).1 = Some "Translation failed." ∧
   view (render down p (initial p) st).1
   = Elem "span" false (Str "Translation failed.")) ∧
  (error (render unavailable q (initial q) st).1 = None ∧
   view (render unavailable q (initial q) st).1
   = Arr [Elem "p" false (Str "Hello")] ∧
   view (render unavailable q (initial q) st).1
   ≠ Arr [Elem "p" false (Str "  Hello ")]).
Proof.
  cbv zeta. split; [repeat split; vm_compute; reflexivity|].
  split; [vm_compute; reflexivity|].
  split; [vm_compute; reflexivity|]. vm_compute. discriminate.
Qed.

(** C3 as amended. A pass has started. (1) When no request of the pass
    fails at transport level (for every leaf that the session cache does
    not serve, the fetch is not rejected and an ok response carries JSON),
    the traversal completes and the component does not enter the error
    state: it shows the rebuilt tree, whose leaves are those of the
    input, each replaced by what was obtained for its trimmed text. For a
    leaf whose request got a response that is not ok (and is not in the
    session cache), [translateText] returns the text it was given, and
    the leaf is shown as that text: its own text without the surrounding
    white space, or unchanged when it is all white space. (2) When the
    request for some leaf fails at transport level (the fetch is rejected
    or an ok response does not carry JSON) without being served by the
    session cache, [translateText] rethrows, the traversal is aborted and
    the component ends in the error state, showing the error. *)
Theorem non_ok_response_degrades
    (api : endpoint) (p : props) (h : hooks) (st : session) :
  let tree := Arr (Children_toArray (children p)) in
  let cached s :=
    truthy (getTranslation (memoryCache st) (trim s) (lang p)) in
  (commit p h).2 = true →
  ((∀ s, s ∈ leaves_of tree → cached s = false →
         transport_ok (api (trim s) (lang p)) = true) →
   ∃ out,
     (traverseAndTranslate api tree (lang p) st).1 = Ok out ∧
     error (render api p h st).1 = None ∧
     loading (render api p h st).1 = false ∧
     view (render api p h st).1 = Arr out ∧
     concat (map leaves out)
     = map (rebuilt_leaf api (lang p) st) (leaves_of tree) ∧
     ∀ s, s ∈ leaves_of tree →
          not_ok (api (trim s) (lang p)) = true → cached s = false →
          (translateText api (trim s) (lang p) st).1 = Ok (Some (trim s)) ∧
          rebuilt_leaf api (lang p) st s
          = if decide (trim s = "") then s else trim s) ∧
  (∀ s, s ∈ leaves_of tree →
        transport_ok (api (trim s) (lang p)) = false → cached s = false →
        (∃ e, (translateText api (trim s) (lang p) st).1 = Throw e) ∧
        (∃ e, (traverseAndTranslate api tree (lang p) st).1 = Throw e) ∧
        error (render api p h st).1 = Some "Translation failed." ∧
        loading (render api p h st).1 = false ∧
        view (render api p h st).1
        = Elem "span" false (Str "Translation failed.")).
Proof.
  intros tree cached Hstart.
  destruct (commit_started p h Hstart) as (Hload & Herr & Hmount).
  assert (∀ r st1, traverseAndTranslate api tree (lang p) st = (r, st1) →
                   (render api p h st).1 = settle r (commit p h).1) as Hrender.
  { intros r st1 Hrun. unfold render, performTranslation.
    destruct (commit p h) as [h1 started]. simpl in Hstart. subst started.
    fold tree. by rewrite Hrun. }
  split.
  - intros Hok.
    destruct (fill_ok_answers api (lang p)
                (sort_by_depth (translationQueue tree)) ∅ st)
      as (m & st1 & Hfill).
    { intros t Ht _.
      apply sorted_queue_texts, list_elem_of_fmap in Ht as (s & -> & Hs).
      destruct (cached s) eqn:Hc; [|by apply answer_ok, Hok].
      unfold answer. unfold cached in Hc. rewrite Hc. eauto. }
    assert (traverseAndTranslate api tree (lang p) st
            = (Ok (Children_map (applyTranslations m) tree), st1)) as Hrun.
    { by rewrite traverseAndTranslate_unfold, Hfill. }
    exists (Children_map (applyTranslations m) tree).
    rewrite (Hrender _ _ Hrun), settle_Ok by done. unfold view.
    cbn [error loading translatedContent fst]. rewrite Herr, Hrun.
    do 4 (split; [done|]). split.
    { apply (traversal_leaves api tree (lang p) st). by rewrite Hrun. }
    intros s Hs Hnot Hmiss.
    assert ((translateText api (trim s) (lang p) st).1 = Ok (Some (trim s)))
      as Hcall.
    { rewrite translateText_result. unfold answer.
      unfold cached in Hmiss. rewrite Hmiss.
      by destruct (api (trim s) (lang p)) as [|[] ? ?]. }
    split; [done|]. unfold rebuilt_leaf. rewrite Hcall.
    case_decide as He; [by rewrite He|].
    by destruct (String.eqb_spec (trim s) "").
  - intros s Hs Hfail Hmiss.
    destruct (traversal_aborts api tree (lang p) st s Hs Hfail Hmiss)
      as [Hcall [e He]].
    split; [done|]. split; [eauto|].
    destruct (traverseAndTranslate api tree (lang p) st) as [r st1] eqn:Hrun.
    cbn [fst] in He. subst r.
    rewrite (Hrender _ _ eq_refl), settle_Throw by done. done.
Qed.

(** The endpoint answers 503 for the only leaf: the tree is shown
    untranslated and the component is not in the error state. The
    endpoint answers 200 with a body that is not JSON: the component is in
    the error state. *)
Lemma non_ok_response_degrades_example :
  let api : endpoint :=
    λ _ _, Core.Response false "Service Unavailable" Core.NotJson in
  let garbled : endpoint := λ _ _, Core.Response true "OK" Core.NotJson in
  let p := mkProps 1 (Elem "p" false (Str "Hello")) "es" in
  let st := mkSession ∅ [] [] in
  (error (render api p (initial p) st).1 = None ∧
   view (render api p (initial p) st).1 = Arr [Elem "p" false (Str "Hello")]) ∧
  error (render garbled p (initial p) st).1 = Some "Translation failed.".
Proof.
  intros api garbled p st. split.
  - destruct (non_ok_response_degrades api p (initial p) st) as [Hdegrades _].
    + reflexivity.
    + destruct Hdegrades as (out & Hout & Herr & _ & Hview & _).
      * intros s _ _. reflexivity.
      * split; [exact Herr|]. rewrite Hview. f_equal.
        assert (Ok out = Ok [Elem "p" false (Str "Hello")]) as Heq.
        { rewrite <- Hout. vm_compute. reflexivity. }
        injection Heq as ->. reflexivity.
  - destruct (non_ok_response_degrades garbled p (initial p) st)
      as [_ Hfails].
    + reflexivity.
    + destruct (Hfails "Hello") as (_ & _ & Herr & _).
      * vm_compute. apply list_elem_of_here.
      * reflexivity.
      * reflexivity.
      * exact Herr.
Defined.

(** C9, evaluated on the code: the component has translated the child
    "Hello" to Spanish; it is rendered again with the same children and
    the language changed to French. The effect runs and returns at
    [if (!hasChildrenChanged) return]: no pass is started, no request is
    made and the Spanish output stays. Rendering with a new children
    reference does start a pass (loading is set before the first await)
    and replaces the output. *)
Theorem language_change_alone_starts_no_pass :
  let api : endpoint := λ _ l,
    Core.Response true "OK"
      (Core.Json (Some (if decide (l = "es") then "Hola" else "Bonjour"))) in
  let es := mkProps 1 (Str "Hello") "es" in
  let fr := mkProps 1 (Str "Hello") "fr" in
  let fr' := mkProps 2 (Str "Hello") "fr" in
  let first := render api es (initial es) (mkSession ∅ [] []) in
  let second := render api fr first.1 first.2 in
  let third := render api fr' first.1 first.2 in
  view first.1 = Arr [Str "Hola"] ∧
  (commit fr first.1).2 = false ∧
  loading (commit fr first.1).1 = false ∧
  view second.1 = Arr [Str "Hola"] ∧
  calls second.2 = [("Hello", "es")] ∧
  (commit fr' first.1).2 = true ∧
  loading (commit fr' first.1).1 = true ∧
  view third.1 = Arr [Str "Bonjour"].
Proof. cbv zeta. repeat split; vm_compute; reflexivity. Qed.

(** In general: whatever the language, a render whose children are the
    ones of the previous effect run starts no pass; a render whose
    children differ starts one and enters loading at once. *)
Lemma pass_started_iff_children_changed (p : props) (h : hooks) :
  coherent h →
  (commit p h).2 = negb (bool_decide (prevChildrenRef h = children_ref p)).
Proof.
  intros Hco. case_bool_decide as Hprev.
  - by apply commit_same_children.
  - by apply commit_changed_children.
Qed.

End ClientClaims.

(** ** The server-side manager: further properties *)

Module CoreExtra.
Import Core CoreSpec CoreRest CoreFacts.

Lemma union_Some_l (v : string) (o : option string) : Some v ∪ o = Some v.
Proof. by destruct o. Qed.

Lemma lookup2_empty (lang text : string) : lookup2 ∅ lang text = None.
Proof. unfold lookup2. by rewrite lookup_empty. Qed.

(** The document a save starts from holds what the file holds. *)
Lemma current_doc_on_disk (f : file) (d : store) (lang text : string) :
  current_doc f = Some d → lookup2 d lang text = on_disk f lang text.
Proof.
  destruct f; intros [= <-]; [apply lookup2_empty|done].
Qed.

Lemma saveTranslations_cases (s : state) :
  (current_doc (disk s) = None ∨ writable s = false) ∨
  (∃ d, current_doc (disk s) = Some d ∧ writable s = true).
Proof.
  destruct (writable s); [|by left; right].
  destruct (current_doc (disk s)) as [d|]; [right; eauto|by left; left].
Qed.

(** X1: A fresh manager holds exactly the document of the file; a missing or
    unparsable file gives an empty cache. Building it writes nothing, and
    the cache it holds is already reconciled with the file. *)
Theorem createTranslationManager_loads_file (f : file) (w : bool) :
  let s := createTranslationManager f w in
  translations s = match f with Doc d => d | _ => ∅ end ∧
  disk s = f ∧ writes s = 0%nat ∧ fetches s = [] ∧
  checkFileUpdates s = s.
Proof.
  unfold createTranslationManager, initialize.
  destruct f as [| |d]; cbn; try done.
  rewrite load_entries_union, (right_id_L ∅ (∪)).
  repeat split. unfold checkFileUpdates, set_translations. cbn.
  by rewrite sync_langs_self.
Qed.

(** X2: What a save persisted is what a new manager on the same file starts
    with. *)
Theorem saved_store_reloads (s s' : state) (w : bool) :
  saveTranslations s = (Ok tt, s') →
  translations (createTranslationManager (disk s') w) = translations s'.
Proof.
  intros Hsave.
  destruct (saveTranslations_cases s) as [Hfail|(d & Hd & Hw)].
  { by rewrite saveTranslations_throws in Hsave. }
  rewrite (saveTranslations_ok s d) in Hsave by done.
  injection Hsave as <-. cbn [disk translations].
  unfold createTranslationManager, initialize. cbn.
  by rewrite load_entries_union, (right_id_L ∅ (∪)).
Qed.

Lemma saved_store_reloads_example :
  let s := mkState {[ "es" := {[ "hi" := "hola" ]} ]}
                   (Doc {[ "fr" := {[ "hi" := "salut" ]} ]}) true 0 [] in
  translations (createTranslationManager (disk (saveTranslations s).2) true)
  = translations (saveTranslations s).2.
Proof.
  intros s. apply (saved_store_reloads s). vm_compute. reflexivity.
Defined.

(** X3: Reconciliation makes the file authoritative for the keys it holds,
    leaves every other entry as it was, touches nothing but the cache, and
    doing it twice is doing it once. *)
Theorem checkFileUpdates_file_is_authoritative (s : state) :
  (∀ lang text v, on_disk (disk s) lang text = Some v →
     lookup2 (translations (checkFileUpdates s)) lang text = Some v) ∧
  (∀ lang text, on_disk (disk s) lang text = None →
     lookup2 (translations (checkFileUpdates s)) lang text
     = lookup2 (translations s) lang text) ∧
  disk (checkFileUpdates s) = disk s ∧
  writes (checkFileUpdates s) = writes s ∧
  checkFileUpdates (checkFileUpdates s) = checkFileUpdates s.
Proof.
  destruct (checkFileUpdates_frame s) as (Hd & _ & Hw & _).
  repeat split; [| |done..|apply checkFileUpdates_idem].
  - intros lang text v Hv.
    by rewrite checkFileUpdates_lookup, Hv, union_Some_l.
  - intros lang text Hv. rewrite checkFileUpdates_lookup, Hv.
    by destruct (lookup2 _ _ _).
Qed.

Lemma checkFileUpdates_file_is_authoritative_example :
  let s := mkState {[ "es" := {[ "hi" := "hola"; "bye" := "adios" ]} ]}
                   (Doc {[ "es" := {[ "hi" := "buenas" ]} ]}) true 0 [] in
  lookup2 (translations (checkFileUpdates s)) "es" "hi" = Some "buenas" ∧
  lookup2 (translations (checkFileUpdates s)) "es" "bye" = Some "adios".
Proof.
  intros s.
  destruct (checkFileUpdates_file_is_authoritative s) as (Hfile & Hrest & _).
  split.
  - apply Hfile. vm_compute. reflexivity.
  - rewrite Hrest; vm_compute; reflexivity.
Defined.

(** X4: A save succeeds exactly when the file is not unparsable and can be
    written; otherwise it throws "Failed to save translations" and leaves
    the cache, the file and the logs as they were. *)
Theorem saveTranslations_fails_iff (s : state) :
  ((saveTranslations s).1 = Ok tt ↔ disk s ≠ Corrupt ∧ writable s = true) ∧
  ((saveTranslations s).1 ≠ Ok tt →
   saveTranslations s = (Throw save_failed, s)).
Proof.
  destruct (saveTranslations_cases s) as [Hfail|(d & Hd & Hw)].
  - rewrite saveTranslations_throws by done. split; [|done].
    split; [done|]. intros [Hc Hw].
    destruct Hfail as [Hd|Hf]; [|congruence]. by destruct (disk s).
  - rewrite (saveTranslations_ok s d) by done. split; [|done].
    split; [|done]. intros _. split; [|done]. intros Hc. by rewrite Hc in Hd.
Qed.

Lemma saveTranslations_fails_iff_example :
  let s := mkState {[ "es" := {[ "hi" := "hola" ]} ]} Corrupt true 0 [] in
  saveTranslations s = (Throw save_failed, s).
Proof.
  intros s. apply saveTranslations_fails_iff. vm_compute. discriminate.
Defined.

(** X5: After a save the cache and the file hold the same document, the cache
    is reconciled, and saving again writes that same document. *)
Theorem saveTranslations_settles (s s' : state) :
  saveTranslations s = (Ok tt, s') →
  disk s' = Doc (translations s') ∧
  checkFileUpdates s' = s' ∧
  ∃ s'', saveTranslations s' = (Ok tt, s'') ∧
         translations s'' = translations s' ∧ disk s'' = disk s'.
Proof.
  intros Hsave.
  destruct (saveTranslations_cases s) as [Hfail|(d & Hd & Hw)].
  { by rewrite saveTranslations_throws in Hsave. }
  rewrite (saveTranslations_ok s d) in Hsave by done.
  injection Hsave as <-. cbn [disk translations].
  set (m := merge d (translations s)).
  split; [done|]. split.
  { unfold checkFileUpdates, set_translations. cbn.
    by rewrite sync_langs_self. }
  rewrite (saveTranslations_ok _ m) by done. cbn [translations].
  eexists. split; [done|]. cbn [translations disk].
  by rewrite merge_sync_langs, sync_langs_self by apply covers_refl.
Qed.

Lemma saveTranslations_settles_example :
  let s := mkState {[ "es" := {[ "hi" := "hola" ]} ]}
                   (Doc {[ "fr" := {[ "hi" := "salut" ]} ]}) true 0 [] in
  disk (saveTranslations s).2 = Doc (translations (saveTranslations s).2).
Proof.
  intros s.
  destruct (saveTranslations_settles s (saveTranslations s).2) as (H & _).
  - vm_compute. reflexivity.
  - exact H.
Defined.

(** *** updateTranslation *)

Lemma written_lookup_ne (s : state) (text lang translation : string)
    (lang' text' : string) :
  (lang', text') ≠ (lang, text) →
  lookup2 (translations (written s text lang translation)) lang' text'
  = lookup2 (translations (checkFileUpdates s)) lang' text'.
Proof.
  intros Hne. unfold written. cbn [translations set_translations].
  set (m := translations (checkFileUpdates s)).
  destruct (decide (lang' = lang)) as [->|Hl].
  - assert (text' ≠ text) as Ht by congruence.
    unfold lookup2 at 1. rewrite lookup_insert_eq. cbn.
    rewrite lookup_insert_ne by done. apply ensure_lang_lookup.
  - unfold lookup2. rewrite lookup_insert_ne by done.
    case_decide; [done|]. by rewrite lookup_insert_ne.
Qed.

Lemma updateTranslation_saved (s : state) (d : store)
    (text lang translation : string) (b : bool) :
  negb (truthy (lookup2 (translations (checkFileUpdates s)) lang text)) || b
  = true →
  current_doc (disk s) = Some d → writable s = true →
  updateTranslation text lang translation b s
  = (Ok tt,
     let m := merge d (translations (written s text lang translation)) in
     mkState m (Doc m) true (S (writes s)) (fetches s)).
Proof.
  intros Hb Hd Hw. rewrite updateTranslation_writes by done.
  destruct (written_frame s text lang translation) as (Hd' & Hw' & Hn & Hf).
  rewrite (saveTranslations_ok _ d) by (by rewrite ?Hd', ?Hw').
  by rewrite Hn, Hf.
Qed.

Lemma updateTranslation_not_saved (s : state)
    (text lang translation : string) (b : bool) :
  negb (truthy (lookup2 (translations (checkFileUpdates s)) lang text)) || b
  = true →
  current_doc (disk s) = None ∨ writable s = false →
  updateTranslation text lang translation b s
  = (Throw save_failed, written s text lang translation).
Proof.
  intros Hb Hfail. rewrite updateTranslation_writes by done.
  destruct (written_frame s text lang translation) as (Hd' & Hw' & _ & _).
  apply saveTranslations_throws. by rewrite Hd', Hw'.
Qed.

(** X6: Insert then look up: when [updateTranslation] writes (no non-empty
    value is cached, or the write is user-modified), the file can be read
    and written and does not hold the key, the call succeeds with one file
    write, a lookup of the key then returns the new translation, the file
    holds it, and every other key reads as reconciliation left it. *)
Theorem updateTranslation_then_getTranslation
    (s : state) (d : store) (text lang translation : string) (b : bool) :
  negb (truthy (lookup2 (translations (checkFileUpdates s)) lang text)) || b
  = true →
  current_doc (disk s) = Some d → writable s = true →
  on_disk (disk s) lang text = None →
  ∃ s', updateTranslation text lang translation b s = (Ok tt, s') ∧
        getTranslation text lang s' = (Some translation, s') ∧
        on_disk (disk s') lang text = Some translation ∧
        writes s' = S (writes s) ∧
        ∀ lang' text', (lang', text') ≠ (lang, text) →
          lookup2 (translations s') lang' text'
          = lookup2 (translations (checkFileUpdates s)) lang' text'.
Proof.
  intros Hb Hd Hw Hnone.
  rewrite (updateTranslation_saved s d) by done. cbn zeta.
  set (m := merge d (translations (written s text lang translation))).
  assert (lookup2 m lang text = Some translation) as Hm.
  { unfold m. rewrite lookup2_merge, written_lookup by by apply covers_written.
    by rewrite (current_doc_on_disk _ _ _ _ Hd), Hnone. }
  eexists. split; [done|]. cbn [disk writes translations on_disk].
  split; [|split; [done|split; [done|]]].
  - unfold getTranslation, checkFileUpdates, set_translations. cbn.
    by rewrite sync_langs_self, Hm.
  - intros lang' text' Hne. unfold m.
    rewrite lookup2_merge by by apply covers_written.
    rewrite written_lookup_ne by done.
    rewrite checkFileUpdates_lookup, (current_doc_on_disk _ _ _ _ Hd).
    by destruct (on_disk (disk s) lang' text'),
      (lookup2 (translations s) lang' text').
Qed.

Lemma updateTranslation_then_getTranslation_example :
  let s := mkState ∅ (Doc {[ "es" := {[ "bye" := "adios" ]} ]}) true 0 [] in
  ∃ s', updateTranslation "hi" "es" "hola" false s = (Ok tt, s') ∧
        getTranslation "hi" "es" s' = (Some "hola", s') ∧
        lookup2 (translations s') "es" "bye" = Some "adios".
Proof.
  intros s.
  destruct (updateTranslation_then_getTranslation s
              {[ "es" := {[ "bye" := "adios" ]} ]} "hi" "es" "hola" false)
    as (s' & Hs & Hget & _ & _ & Hrest).
  - vm_compute. reflexivity.
  - reflexivity.
  - reflexivity.
  - vm_compute. reflexivity.
  - exists s'. split; [exact Hs|]. split; [exact Hget|].
    rewrite Hrest by discriminate. vm_compute. reflexivity.
Defined.

(** X7: When the save behind a write fails (the file is unparsable or cannot
    be written), [updateTranslation] throws "Failed to save translations"
    and the file is as before, but the cache is not rolled back: it holds
    the new translation. *)
Theorem updateTranslation_failed_save_keeps_cache_entry
    (s : state) (text lang translation : string) (b : bool) :
  negb (truthy (lookup2 (translations (checkFileUpdates s)) lang text)) || b
  = true →
  current_doc (disk s) = None ∨ writable s = false →
  ∃ s', updateTranslation text lang translation b s
        = (Throw save_failed, s') ∧
        lookup2 (translations s') lang text = Some translation ∧
        disk s' = disk s ∧ writes s' = writes s.
Proof.
  intros Hb Hfail. rewrite updateTranslation_not_saved by done.
  destruct (written_frame s text lang translation) as (Hd & _ & Hn & _).
  eexists. split; [done|]. by rewrite written_lookup.
Qed.

Lemma updateTranslation_failed_save_example :
  let s := mkState ∅ Missing false 0 [] in
  ∃ s', updateTranslation "hi" "es" "hola" false s
        = (Throw save_failed, s') ∧
        lookup2 (translations s') "es" "hi" = Some "hola" ∧
        disk s' = Missing.
Proof.
  intros s.
  destruct (updateTranslation_failed_save_keeps_cache_entry s "hi" "es"
              "hola" false) as (s' & Hs & Hl & Hd & _).
  - vm_compute. reflexivity.
  - right. reflexivity.
  - exists s'. split; [exact Hs|]. split; [exact Hl|exact Hd].
Defined.

Lemma updateTranslation_disk_keeps
    (s : state) (text lang translation : string) (b : bool)
    (lang' text' v : string) :
  on_disk (disk s) lang' text' = Some v →
  on_disk (disk (updateTranslation text lang translation b s).2) lang' text'
  = Some v.
Proof.
  intros Hv.
  destruct (negb (truthy (lookup2 (translations (checkFileUpdates s))
                                  lang text)) || b) eqn:Hb.
  - destruct (saveTranslations_cases s) as [Hfail|(d & Hd & Hw)].
    + rewrite updateTranslation_not_saved by done. cbn [snd].
      by destruct (written_frame s text lang translation) as (-> & _).
    + rewrite (updateTranslation_saved s d) by done.
      cbn [snd disk on_disk].
      rewrite lookup2_merge by by apply covers_written.
      by rewrite (current_doc_on_disk _ _ _ _ Hd), Hv, union_Some_l.
  - unfold updateTranslation. cbn zeta. rewrite ensure_lang_lookup, Hb.
    cbn [snd]. unfold set_translations. cbn [disk].
    by destruct (checkFileUpdates_frame s) as (-> & _).
Qed.


(** *** translateText *)

Lemma miss_state (s : state) (text lang : string) :
  let s3 := log_fetch text lang (checkFileUpdates s) in
  checkFileUpdates s3 = s3 ∧
  translations s3 = translations (checkFileUpdates s) ∧
  disk s3 = disk s ∧ writable s3 = writable s ∧ writes s3 = writes s ∧
  fetches s3 = (fetches s ++ [(text, lang)])%list.
Proof.
  cbn zeta. rewrite checkFileUpdates_log_fetch, checkFileUpdates_idem.
  destruct (checkFileUpdates_frame s) as (Hd & Hw & Hn & Hf).
  unfold log_fetch. cbn. by rewrite Hf.
Qed.

Lemma translateText_remote_ok (s : state) (st t : string)
    (text lang : string) :
  truthy (lookup2 (translations (checkFileUpdates s)) lang text) = false →
  t ≠ "" →
  translateText (Response true st (Json (Some t))) text lang s
  = match updateTranslation text lang t false
            (log_fetch text lang (checkFileUpdates s)) with
    | (Ok _, s4) => (Ok t, s4)
    | (Throw e, s4) => (Throw e, s4)
    end.
Proof.
  intros Hm Ht. rewrite translateText_miss by done. cbn zeta.
  apply truthy_Some in Ht. by rewrite Ht.
Qed.

(** X8: A miss answered by the remote API: when the file can be read and
    written and does not hold the key, [translateText] returns the
    translation after exactly one remote call and one file write; the
    cache and the file then hold it, and every value the file held is
    still there. *)
Theorem translateText_miss_fetches_and_persists
    (s : state) (d : store) (st t text lang : string) :
  truthy (lookup2 (translations (checkFileUpdates s)) lang text) = false →
  t ≠ "" →
  current_doc (disk s) = Some d → writable s = true →
  on_disk (disk s) lang text = None →
  ∃ s', translateText (Response true st (Json (Some t))) text lang s
        = (Ok t, s') ∧
        lookup2 (translations s') lang text = Some t ∧
        on_disk (disk s') lang text = Some t ∧
        fetches s' = (fetches s ++ [(text, lang)])%list ∧
        writes s' = S (writes s) ∧
        ∀ lang' text' v, on_disk (disk s) lang' text' = Some v →
                         on_disk (disk s') lang' text' = Some v.
Proof.
  intros Hm Ht Hd Hw Hnone. rewrite translateText_remote_ok by done.
  destruct (miss_state s text lang) as (Hrec & Htr & Hd3 & Hw3 & Hn3 & Hf3).
  set (s3 := log_fetch text lang (checkFileUpdates s)) in *.
  rewrite (updateTranslation_saved s3 d)
    by (by rewrite ?Hrec, ?Htr, ?Hm, ?Hd3, ?Hw3).
  cbn zeta. eexists. split; [done|]. cbn [translations disk on_disk].
  assert (∀ lang' text',
    lookup2 (merge d (translations (written s3 text lang t))) lang' text'
    = on_disk (disk s) lang' text'
      ∪ lookup2 (translations (written s3 text lang t)) lang' text') as Hl.
  { intros. rewrite lookup2_merge by (apply covers_written; by rewrite Hd3).
    by rewrite (current_doc_on_disk _ _ _ _ Hd). }
  rewrite Hl, Hnone, written_lookup, Hn3, Hf3. repeat split.
  intros lang' text' v Hv. by rewrite Hl, Hv, union_Some_l.
Qed.

Lemma translateText_miss_fetches_and_persists_example :
  let s := mkState ∅ (Doc {[ "es" := {[ "bye" := "adios" ]} ]}) true 0 [] in
  ∃ s', translateText (Response true "OK" (Json (Some "hola"))) "hi" "es" s
        = (Ok "hola", s') ∧
        on_disk (disk s') "es" "hi" = Some "hola" ∧
        on_disk (disk s') "es" "bye" = Some "adios".
Proof.
  intros s.
  destruct (translateText_miss_fetches_and_persists s
              {[ "es" := {[ "bye" := "adios" ]} ]} "OK" "hola" "hi" "es")
    as (s' & Hs & _ & Hd & _ & _ & Hkeep).
  - vm_compute. reflexivity.
  - discriminate.
  - reflexivity.
  - reflexivity.
  - vm_compute. reflexivity.
  - exists s'. split; [exact Hs|]. split; [exact Hd|].
    apply Hkeep. vm_compute. reflexivity.
Defined.

(** X9: A translation that could not be persisted stays in the cache: when
    the remote API answers a miss but the save fails, [translateText]
    throws "Failed to save translations", the file is untouched and the
    cache holds the translation. When the file holds no entry for the
    key, the next call for the same text returns that translation from
    the cache with no remote call and no write. When the file holds the
    empty string for the key, the next reconciliation puts the empty
    string back and the next call goes to the remote API again. *)
Theorem translateText_failed_save_still_caches
    (s : state) (st t text lang : string) :
  truthy (lookup2 (translations (checkFileUpdates s)) lang text) = false →
  t ≠ "" →
  current_doc (disk s) = None ∨ writable s = false →
  ∃ s1, translateText (Response true st (Json (Some t))) text lang s
        = (Throw save_failed, s1) ∧
        disk s1 = disk s ∧ writes s1 = writes s ∧
        lookup2 (translations s1) lang text = Some t ∧
        (on_disk (disk s) lang text = None →
         ∀ r2, ∃ s2, translateText r2 text lang s1 = (Ok t, s2) ∧
                     fetches s2 = fetches s1 ∧ writes s2 = writes s ∧
                     disk s2 = disk s) ∧
        (on_disk (disk s) lang text = Some "" →
         ∀ r2, fetches (translateText r2 text lang s1).2
               = (fetches s1 ++ [(text, lang)])%list).
Proof.
  intros Hm Ht Hfail. rewrite translateText_remote_ok by done.
  destruct (miss_state s text lang) as (Hrec & Htr & Hd3 & Hw3 & Hn3 & Hf3).
  set (s3 := log_fetch text lang (checkFileUpdates s)) in *.
  rewrite (updateTranslation_not_saved s3)
    by (by rewrite ?Hrec, ?Htr, ?Hm, ?Hd3, ?Hw3).
  destruct (written_frame s3 text lang t) as (Hdw & _ & Hnw & _).
  pose proof (written_lookup s3 text lang t) as Hl.
  set (s1 := written s3 text lang t) in *.
  exists s1. split; [done|].
  assert (disk s1 = disk s) as Hd1 by congruence.
  assert (writes s1 = writes s) as Hn1 by congruence.
  do 3 (split; [done|]). split.
  - intros Hnone r2.
    assert (lookup2 (translations (checkFileUpdates s1)) lang text = Some t)
      as Hhit by (by rewrite checkFileUpdates_lookup, Hd1, Hnone, Hl).
    rewrite translateText_hit by (rewrite Hhit; by apply truthy_Some).
    rewrite Hhit. eexists. split; [done|].
    destruct (checkFileUpdates_frame s1) as (-> & _ & -> & ->). done.
  - intros Hempty r2. apply translateText_fetches_miss.
    by rewrite checkFileUpdates_lookup, Hd1, Hempty, union_Some_l.
Qed.

(** An unparsable file, and an unwritable file that holds the empty
    string for the key. *)
Lemma translateText_failed_save_still_caches_example :
  let s := mkState ∅ Corrupt true 0 [] in
  let e := mkState ∅ (Doc {[ "es" := {[ "hi" := "" ]} ]}) false 0 [] in
  let hola := Response true "OK" (Json (Some "hola")) in
  (∃ s1, translateText hola "hi" "es" s = (Throw save_failed, s1) ∧
         ∃ s2, translateText NetworkFailure "hi" "es" s1 = (Ok "hola", s2)) ∧
  (∃ e1, translateText hola "hi" "es" e = (Throw save_failed, e1) ∧
         lookup2 (translations e1) "es" "hi" = Some "hola" ∧
         fetches (translateText hola "hi" "es" e1).2
         = [("hi", "es"); ("hi", "es")]).
Proof.
  intros s e hola. split.
  - destruct (translateText_failed_save_still_caches s "OK" "hola" "hi" "es")
      as (s1 & Hs1 & _ & _ & _ & Hnext & _).
    + vm_compute. reflexivity.
    + discriminate.
    + left. reflexivity.
    + exists s1. split; [exact Hs1|].
      destruct (Hnext eq_refl NetworkFailure) as (s2 & Hs2 & _).
      by exists s2.
  - destruct (translateText_failed_save_still_caches e "OK" "hola" "hi" "es")
      as (e1 & He1 & _ & _ & Hl & _ & Hagain).
    + vm_compute. reflexivity.
    + discriminate.
    + right. reflexivity.
    + exists e1. split; [exact He1|]. split; [exact Hl|].
      rewrite (Hagain eq_refl hola).
      apply (f_equal snd) in He1. cbn [snd] in He1. rewrite <- He1.
      vm_compute. reflexivity.
Defined.

(** How a call of [translateText] can end well: on a hit, with the cached
    value and the reconciled state; on a miss, with the non-empty
    translation of an ok response, after a save that succeeded. *)
Lemma translateText_Ok_cases (s s' : state) (r : response)
    (text lang t : string) :
  translateText r text lang s = (Ok t, s') →
  t ≠ "" ∧
  ((lookup2 (translations (checkFileUpdates s)) lang text = Some t ∧
    s' = checkFileUpdates s) ∨
   (truthy (lookup2 (translations (checkFileUpdates s)) lang text) = false ∧
    ∃ st, r = Response true st (Json (Some t)))).
Proof.
  intros Hcall.
  destruct (truthy (lookup2 (translations (checkFileUpdates s)) lang text))
    eqn:Hc.
  - rewrite translateText_hit in Hcall by done.
    destruct (lookup2 _ _ _) as [v|] eqn:Hv; [|done].
    injection Hcall as <- <-. split; [by apply truthy_Some|by left].
  - rewrite translateText_miss in Hcall by done. cbn zeta in Hcall.
    destruct r as [|[] st [|[v|]]]; try done.
    destruct (truthy (Some v)) eqn:Hv; [|done].
    destruct (updateTranslation _ _ _ _ _) as [[[]|e] s4]; [|done].
    injection Hcall as <- <-. split; [by apply truthy_Some|]. right. eauto.
Qed.

(** X10: [translateText] never resolves to the empty string, and a call makes
    at most one remote call and at most one file write, the write only
    after a remote call that succeeded. *)
Theorem translateText_effects_are_bounded
    (s : state) (r : response) (text lang : string) :
  let out := translateText r text lang s in
  (∀ t, out.1 = Ok t → t ≠ "") ∧
  (fetches out.2 = fetches s ∨
   fetches out.2 = (fetches s ++ [(text, lang)])%list) ∧
  (writes out.2 = writes s ∨
   (writes out.2 = S (writes s) ∧ remote_ok r = true ∧
    fetches out.2 = (fetches s ++ [(text, lang)])%list)).
Proof.
  cbn zeta. split.
  { intros t Ht.
    destruct (translateText r text lang s) as [o s'] eqn:Hcall.
    cbn in Ht. subst o. by destruct (translateText_Ok_cases _ _ _ _ _ _ Hcall). }
  destruct (truthy (lookup2 (translations (checkFileUpdates s)) lang text))
    eqn:Hc.
  { rewrite translateText_hit by done. cbn [snd].
    destruct (checkFileUpdates_frame s) as (_ & _ & -> & ->). by split; left. }
  split; [right; by apply translateText_fetches_miss|].
  pose proof (translateText_fetches_miss r text lang s Hc) as Hf.
  revert Hf. rewrite translateText_miss by done. cbn zeta.
  destruct (miss_state s text lang) as (Hrec & Htr & Hd3 & Hw3 & Hn3 & Hf3).
  set (s3 := log_fetch text lang (checkFileUpdates s)) in *.
  destruct r as [|[] st [|tr]]; cbn [snd]; try (intros _; by left).
  destruct (truthy tr) eqn:Htr'; cbn [snd]; [|intros _; by left].
  assert (negb (truthy (lookup2 (translations (checkFileUpdates s3))
                                lang text)) || false = true) as Hb
    by (by rewrite Hrec, Htr, Hc).
  destruct (saveTranslations_cases s3) as [Hfail|(d & Hd & Hw)].
  - rewrite updateTranslation_not_saved by done. cbn [snd]. intros _. left.
    destruct (written_frame s3 text lang (default "" tr)) as (_ & _ & -> & _).
    done.
  - rewrite (updateTranslation_saved s3 d) by done. cbn [snd writes fetches].
    intros Hf. right. by rewrite Hn3.
Qed.

Lemma translateText_effects_are_bounded_example :
  let s := mkState ∅ Missing true 0 [] in
  let out := translateText (Response true "OK" (Json (Some ""))) "hi" "es" s in
  out.1 ≠ Ok "" ∧ writes out.2 = 0%nat.
Proof.
  intros s out.
  destruct (translateText_effects_are_bounded s
              (Response true "OK" (Json (Some ""))) "hi" "es")
    as (Hne & _ & [Hw|(_ & Hok & _)]).
  - split; [|exact Hw]. intros Hout. by apply (Hne "" Hout).
  - discriminate Hok.
Defined.

(** X11: Through the manager no value the file holds is ever changed or
    removed: neither [updateTranslation] (whatever its flag) nor
    [translateText] (whatever the remote answer) touches it. *)
Theorem manager_never_changes_file_entries
    (s : state) (lang' text' v : string) :
  on_disk (disk s) lang' text' = Some v →
  (∀ text lang translation b,
     on_disk (disk (updateTranslation text lang translation b s).2)
             lang' text' = Some v) ∧
  (∀ r text lang,
     on_disk (disk (translateText r text lang s).2) lang' text' = Some v).
Proof.
  intros Hv. split; [intros; by apply updateTranslation_disk_keeps|].
  intros r text lang.
  destruct (truthy (lookup2 (translations (checkFileUpdates s)) lang text))
    eqn:Hc.
  { rewrite translateText_hit by done. cbn [snd].
    by destruct (checkFileUpdates_frame s) as (-> & _). }
  rewrite translateText_miss by done. cbn zeta.
  destruct (miss_state s text lang) as (_ & _ & Hd3 & _).
  set (s3 := log_fetch text lang (checkFileUpdates s)) in *.
  assert (on_disk (disk s3) lang' text' = Some v) as Hv3 by by rewrite Hd3.
  destruct r as [|[] st [|tr]]; cbn [snd]; try done.
  destruct (truthy tr); [|done].
  pose proof (updateTranslation_disk_keeps s3 text lang (default "" tr)
                false lang' text' v Hv3) as Hu.
  by destruct (updateTranslation _ _ _ _ _) as [[[]|e] s4].
Qed.

Lemma manager_never_changes_file_entries_example :
  let s := mkState ∅ (Doc {[ "es" := {[ "hi" := "hola" ]} ]}) true 0 [] in
  on_disk (disk (updateTranslation "hi" "es" "buenos" true s).2) "es" "hi"
  = Some "hola".
Proof.
  intros s.
  destruct (manager_never_changes_file_entries s "es" "hi" "hola") as [H _].
  - vm_compute. reflexivity.
  - apply H.
Defined.

(** X12: A manual edit of the file takes effect at the next call: when the
    file holds a non-empty value for the key, [translateText] returns it
    without calling the remote API and without writing, whatever the
    cache held before and whatever the remote API would answer. *)
Theorem manual_edit_takes_effect_at_once
    (s : state) (r : response) (text lang v : string) :
  on_disk (disk s) lang text = Some v → v ≠ "" →
  ∃ s', translateText r text lang s = (Ok v, s') ∧
        lookup2 (translations s') lang text = Some v ∧
        fetches s' = fetches s ∧ writes s' = writes s ∧ disk s' = disk s.
Proof.
  intros Hv Hne.
  assert (lookup2 (translations (checkFileUpdates s)) lang text = Some v)
    as Hc by (by rewrite checkFileUpdates_lookup, Hv, union_Some_l).
  rewrite translateText_hit by (rewrite Hc; by apply truthy_Some).
  rewrite Hc. eexists. split; [done|]. split; [done|].
  by destruct (checkFileUpdates_frame s) as (-> & _ & -> & ->).
Qed.

Lemma manual_edit_takes_effect_at_once_example :
  let s := mkState {[ "es" := {[ "Welcome" := "Bienvenido" ]} ]}
                   (Doc {[ "es" := {[ "Welcome" := "Hola" ]} ]}) true 0 [] in
  ∃ s', translateText NetworkFailure "Welcome" "es" s = (Ok "Hola", s').
Proof.
  intros s.
  destruct (manual_edit_takes_effect_at_once s NetworkFailure "Welcome" "es"
              "Hola") as (s' & Hs & _).
  - vm_compute. reflexivity.
  - discriminate.
  - by exists s'.
Defined.

(** *** The endpoint of the setup guide *)

(** X13: The endpoint answers 400 exactly when [text] or [targetLang] is
    missing or empty, and then neither the manager nor the remote API is
    touched; otherwise it answers 200 with a [translatedText] that is
    never empty, or 500 without one when [translateText] throws. Only the
    200 reply is ok for [fetch]. *)
Theorem post_translate_replies
    (remote : response) (text targetLang : option string) (s : state) :
  let out := post_translate remote text targetLang s in
  (status out.1 = 400%nat ↔ truthy text = false ∨ truthy targetLang = false) ∧
  (status out.1 = 400%nat → out.2 = s ∧ translatedText out.1 = None) ∧
  (status out.1 = 200%nat ∧
     (∃ t, translatedText out.1 = Some t ∧ t ≠ "") ∨
   status out.1 = 400%nat ∨
   status out.1 = 500%nat ∧ translatedText out.1 = None) ∧
  as_response out.1
  = Response (bool_decide (status out.1 = 200%nat))
             (match status out.1 with
              | 200 => "OK" | 400 => "Bad Request"
              | _ => "Internal Server Error" end)
             (Json (translatedText out.1)).
Proof.
  cbn zeta. unfold post_translate.
  destruct (truthy text) eqn:Ht, (truthy targetLang) eqn:Hl; cbn [negb orb];
    try (split; [split; [by eauto|done]|]; by repeat split; eauto).
  destruct (translateText remote (default "" text) (default "" targetLang) s)
    as [[t|e] s1] eqn:Hcall; cbn [fst snd status translatedText].
  - destruct (translateText_Ok_cases _ _ _ _ _ _ Hcall) as [Hne _].
    split; [split; [done|by intros [|]]|]. split; [done|].
    split; [left; eauto|done].
  - split; [split; [done|by intros [|]]|]. split; [done|].
    split; [by right; right|done].
Qed.

Lemma post_translate_replies_example :
  let s := mkState ∅ Missing true 0 [] in
  (post_translate NetworkFailure (Some "") (Some "es") s).2 = s.
Proof.
  intros s.
  destruct (post_translate_replies NetworkFailure (Some "") (Some "es") s)
    as (_ & H400 & _).
  apply H400. reflexivity.
Defined.

End CoreExtra.

(** ** The tree translator: further properties *)

Module ClientExtra.
Import Client ClientSpec ClientRest ClientFacts ClientClaims.

(** *** The session cache *)

Lemma no_colon_app (a b : string) :
  no_colon (a ++ b) = no_colon a && no_colon b.
Proof.
  induction a as [|c a IH]; [done|]. simpl. rewrite IH.
  by destruct (Ascii.eqb c ":"%char).
Qed.

Lemma append_assoc (a b c : string) : (a ++ b) ++ c = a ++ (b ++ c).
Proof.
  induction a as [|x a IH]; [done|].
  change (String x ((a ++ b) ++ c) = String x (a ++ (b ++ c))).
  by rewrite IH.
Qed.

Lemma getCacheKey_inj_pair (t1 l1 t2 l2 : string) :
  no_colon l1 = true → no_colon l2 = true →
  getCacheKey t1 l1 = getCacheKey t2 l2 → t1 = t2 ∧ l1 = l2.
Proof.
  unfold getCacheKey. intros H1 H2. revert t2.
  assert (∀ a b, no_colon (a ++ ":" ++ b) = false) as Hcolon.
  { intros a b. rewrite no_colon_app. simpl. apply andb_false_r. }
  induction t1 as [|c t1 IH]; intros [|c2 t2] Hk; simpl in Hk.
  - by simplify_eq.
  - injection Hk as _ Hk.
    assert (no_colon ("" ++ l1) = false) as Hf by (rewrite Hk; apply Hcolon).
    change (no_colon l1 = false) in Hf. congruence.
  - injection Hk as _ Hk.
    assert (no_colon ("" ++ l2) = false) as Hf by (rewrite <- Hk; apply Hcolon).
    change (no_colon l2 = false) in Hf. congruence.
  - injection Hk as -> Hk. by destruct (IH t2 Hk) as [-> ->].
Qed.

(** X14: A translation stored for (text, language) is read back for that pair;
    when language codes hold no colon it is read back for no other pair,
    and every other pair reads as before. Without that proviso two pairs
    can share a key: a text ending in ":x" with language l shares the key
    of the text before it with language "x:l". *)
Theorem session_cache_set_then_get
    (cache : gmap string string) (t l v : string) :
  getTranslation (setTranslation cache t l v) t l = Some v ∧
  (∀ t' l', no_colon l = true → no_colon l' = true → (t', l') ≠ (t, l) →
     getTranslation (setTranslation cache t l v) t' l'
     = getTranslation cache t' l') ∧
  (∀ x, getTranslation (setTranslation cache (t ++ ":" ++ x) l v)
                       t (x ++ ":" ++ l) = Some v).
Proof.
  unfold getTranslation, setTranslation. split; [|split].
  - by rewrite lookup_insert_eq.
  - intros t' l' Hl Hl' Hne. rewrite lookup_insert_ne; [done|].
    intros Hk. apply Hne.
    by destruct (getCacheKey_inj_pair t l t' l' Hl Hl' Hk) as [-> ->].
  - intros x.
    assert (getCacheKey (t ++ ":" ++ x) l = getCacheKey t (x ++ ":" ++ l))
      as ->; [|by rewrite lookup_insert_eq].
    unfold getCacheKey. by rewrite !append_assoc.
Qed.

Lemma session_cache_set_then_get_example :
  getTranslation (setTranslation ∅ "Hello" "es" "Hola") "Hello" "fr" = None.
Proof.
  destruct (session_cache_set_then_get ∅ "Hello" "es" "Hola")
    as (_ & Hother & _).
  rewrite Hother; [reflexivity|reflexivity|reflexivity|discriminate].
Defined.

(** *** translateText *)

Lemma translateText_cache_at (api : endpoint) (t lang : string)
    (st : session) :
  getTranslation (memoryCache (translateText api t lang st).2) t lang
  = cached_after api (memoryCache st) lang t.
Proof.
  unfold translateText, cached_after, mbind, M_bind, log_call, cache_get.
  simpl. destruct (truthy (getTranslation (memoryCache st) t lang)) eqn:Hc;
    [done|].
  unfold log_fetch. destruct (api t lang) as [|[] sttxt [|tr]]; simpl;
    try done.
  destruct (truthy tr) eqn:Htr; simpl; [|done].
  unfold getTranslation, setTranslation. rewrite lookup_insert_eq.
  by destruct tr.
Qed.

Lemma translateText_fetched (api : endpoint) (t lang : string)
    (st : session) :
  fetched (translateText api t lang st).2
  = if truthy (getTranslation (memoryCache st) t lang)
    then fetched st else (fetched st ++ [(t, lang)])%list.
Proof.
  destruct (translateText_spec api t lang st) as (st' & Heq & _ & _ & Hf).
  by rewrite Heq.
Qed.

Lemma translateText_cache_same (api : endpoint) (t lang : string)
    (st : session) :
  cached_after api (memoryCache st) lang t
  = getTranslation (memoryCache st) t lang →
  memoryCache (translateText api t lang st).2 = memoryCache st.
Proof.
  intros Hsame. apply map_eq. intros k.
  destruct (decide (k = getCacheKey t lang)) as [->|Hk].
  - pose proof (translateText_cache_at api t lang st) as H.
    unfold getTranslation in *. by rewrite H, Hsame.
  - by apply translateText_cache_frame.
Qed.

(** X15: A translation obtained from the endpoint is cached for the session:
    the call returns it, and any later call for the same text and language
    returns it again without a request, whatever the endpoint would then
    answer. *)
Theorem translateText_caches_translation
    (api : endpoint) (t lang sttxt v : string) (st : session) :
  truthy (getTranslation (memoryCache st) t lang) = false →
  api t lang = Core.Response true sttxt (Core.Json (Some v)) → v ≠ "" →
  (translateText api t lang st).1 = Ok (Some v) ∧
  ∀ api' : endpoint,
    let st1 := (translateText api t lang st).2 in
    (translateText api' t lang st1).1 = Ok (Some v) ∧
    fetched (translateText api' t lang st1).2 = fetched st1 ∧
    memoryCache (translateText api' t lang st1).2 = memoryCache st1.
Proof.
  intros Hmiss Hapi Hv. apply CoreFacts.truthy_Some in Hv.
  split.
  { rewrite translateText_result. unfold answer. by rewrite Hmiss, Hapi. }
  intros api' st1.
  assert (getTranslation (memoryCache st1) t lang = Some v) as Hc.
  { unfold st1. rewrite translateText_cache_at. unfold cached_after.
    by rewrite Hmiss, Hapi, Hv. }
  split; [|split].
  - rewrite translateText_result. unfold answer. by rewrite Hc, Hv.
  - by rewrite translateText_fetched, Hc, Hv.
  - apply translateText_cache_same. unfold cached_after. by rewrite Hc, Hv.
Qed.

Lemma translateText_caches_translation_example :
  let api : endpoint :=
    λ _ _, Core.Response true "OK" (Core.Json (Some "Hola")) in
  let down : endpoint := λ _ _, Core.NetworkFailure in
  let st1 := (translateText api "Hello" "es" (mkSession ∅ [] [])).2 in
  (translateText down "Hello" "es" st1).1 = Ok (Some "Hola").
Proof.
  intros api down st1.
  destruct (translateText_caches_translation api "Hello" "es" "OK" "Hola"
              (mkSession ∅ [] [])) as [_ Hnext]; [done|done|done|].
  apply (Hnext down).
Defined.

(** X16: What is not a translation is not cached: when the answer is a
    response that is not ok, or carries no non-empty translatedText, the
    session cache is left as it was, so the next call for the same text
    asks the endpoint again. A response that is not ok makes the call
    return the text it was given. *)
Theorem translateText_caches_nothing_else
    (api : endpoint) (t lang : string) (st : session) :
  truthy (getTranslation (memoryCache st) t lang) = false →
  CoreSpec.remote_ok (api t lang) = false →
  let st1 := (translateText api t lang st).2 in
  memoryCache st1 = memoryCache st ∧
  fetched (translateText api t lang st1).2
  = (fetched st ++ [(t, lang); (t, lang)])%list ∧
  (not_ok (api t lang) = true →
   (translateText api t lang st).1 = Ok (Some t)).
Proof.
  intros Hmiss Hno st1.
  assert (memoryCache st1 = memoryCache st) as Hc.
  { apply translateText_cache_same. unfold cached_after. rewrite Hmiss.
    destruct (api t lang) as [|[] ? [|tr]]; try done.
    simpl in Hno. by rewrite Hno. }
  split; [done|]. split.
  - rewrite translateText_fetched, Hc, Hmiss. unfold st1.
    by rewrite translateText_fetched, Hmiss, <- app_assoc.
  - intros Hnot. rewrite translateText_result. unfold answer.
    rewrite Hmiss. by destruct (api t lang) as [|[] ? ?].
Qed.

Lemma translateText_caches_nothing_else_example :
  let api : endpoint :=
    λ _ _, Core.Response false "Internal Server Error" (Core.Json None) in
  (translateText api "Hello" "es" (mkSession ∅ [] [])).1 = Ok (Some "Hello") ∧
  memoryCache (translateText api "Hello" "es" (mkSession ∅ [] [])).2 = ∅.
Proof.
  intros api.
  destruct (translateText_caches_nothing_else api "Hello" "es"
              (mkSession ∅ [] [])) as (Hc & _ & Hr); [done|done|].
  split; [by apply Hr|exact Hc].
Defined.

(** *** The requests of a traversal and the session cache *)

Lemma answer_stable (api : endpoint) (lang t t0 : string)
    (c c1 : gmap string string) :
  (∀ k, k ≠ getCacheKey t0 lang → c1 !! k = c !! k) → t ≠ t0 →
  answer api c1 lang t = answer api c lang t ∧
  cached_after api c1 lang t = cached_after api c lang t.
Proof.
  intros Hc Hne. unfold answer, cached_after, getTranslation.
  rewrite Hc; [done|]. intros Hk. by apply getCacheKey_inj in Hk.
Qed.

(** The keys [fill] can write are those of the texts it requests. *)
Lemma fill_cache_frame (api : endpoint) (lang : string) (queue : list item)
    (k : string) :
  ∀ (m : translation_map) (st : session),
  (∀ t, t ∈ map text queue → m !! t = None → k ≠ getCacheKey t lang) →
  memoryCache (fill api lang queue m st).2 !! k = memoryCache st !! k.
Proof.
  induction queue as [|it rest IH]; intros m st Hk; [done|].
  simpl. case_decide as Hin.
  - apply IH. intros t Ht Hm. apply Hk; [by right|done].
  - assert (m !! text it = None) as Hnone
      by (destruct (m !! text it); [exfalso; eauto|done]).
    unfold mbind, M_bind.
    pose proof (translateText_cache_frame api (text it) lang st k) as Hf.
    destruct (translateText api (text it) lang st) as [[v|e] st1];
      cbn [snd] in *.
    + rewrite IH; [apply Hf, Hk; [by left|done]|].
      intros t Ht Hm. apply Hk; [by right|].
      destruct (decide (t = text it)) as [->|Hne].
      * by rewrite lookup_insert_eq in Hm.
      * by rewrite lookup_insert_ne in Hm.
    + apply Hf, Hk; [by left|done].
Qed.

(** What a completed [fill] leaves in the cache for each text it
    requested. *)
Lemma fill_cache_exact (api : endpoint) (lang : string) (queue : list item) :
  ∀ (m m' : translation_map) (st st' : session),
  fill api lang queue m st = (Ok m', st') →
  ∀ t, t ∈ map text queue → m !! t = None →
       getTranslation (memoryCache st') t lang
       = cached_after api (memoryCache st) lang t.
Proof.
  induction queue as [|it rest IH]; intros m m' st st' Hfill t Ht Hm.
  { by apply elem_of_nil in Ht. }
  simpl in Hfill. case_decide as Hin.
  - apply (IH _ _ _ _ Hfill); [|done].
    apply elem_of_cons in Ht as [->|Ht]; [|done].
    destruct Hin as [? Hin]. congruence.
  - unfold mbind, M_bind in Hfill.
    pose proof (translateText_cache_at api (text it) lang st) as Hat.
    pose proof (translateText_cache_frame api (text it) lang st) as Hfr.
    destruct (translateText api (text it) lang st) as [[v|e] st1];
      cbn [snd] in *; [|done].
    destruct (decide (t = text it)) as [->|Hne].
    + rewrite <- Hat. unfold getTranslation.
      replace st' with (fill api lang rest (<[text it := v]> m) st1).2
        by by rewrite Hfill.
      apply fill_cache_frame. intros t' _ Hm' Hk.
      apply getCacheKey_inj in Hk. subst t'.
      by rewrite lookup_insert_eq in Hm'.
    + rewrite (IH _ _ _ _ Hfill t).
      * by destruct (answer_stable api lang t (text it) (memoryCache st)
                       (memoryCache st1)) as [_ ->].
      * by apply elem_of_cons in Ht as [->|Ht].
      * by rewrite lookup_insert_ne.
Qed.

(** The map and the cache a completed [fill] ends with do not depend on
    the order of the queue. *)
Lemma fill_order (api : endpoint) (lang : string) (q q' : list item)
    (m1 : translation_map) (st st1 : session) :
  q ≡ₚ q' →
  fill api lang q ∅ st = (Ok m1, st1) →
  ∃ st2, fill api lang q' ∅ st = (Ok m1, st2) ∧
         memoryCache st2 = memoryCache st1.
Proof.
  intros Hperm Hfill.
  assert (∀ t, t ∈ map text q ↔ t ∈ map text q') as Hmem.
  { intros t. by rewrite Hperm. }
  destruct (fill_values _ _ _ _ _ _ _ Hfill) as (_ & Hnew & Hout).
  destruct (fill_ok_answers api lang q' ∅ st) as (m2 & st2 & Hfill2).
  { intros t Ht _. destruct (Hnew t) as (v & Hv & _); [done| |eauto].
    by apply Hmem. }
  destruct (fill_values _ _ _ _ _ _ _ Hfill2) as (_ & Hnew2 & Hout2).
  assert (m2 = m1) as ->.
  { apply map_eq. intros t.
    destruct (decide (t ∈ map text q)) as [Ht|Ht].
    - destruct (Hnew t) as (v & Hv & ->); [done..|].
      destruct (Hnew2 t) as (v2 & Hv2 & ->); [done|by apply Hmem|].
      congruence.
    - rewrite Hout, Hout2; [done|done| |done|done].
      intros Ht'. by apply Ht, Hmem. }
  exists st2. split; [done|]. apply map_eq. intros k.
  destruct (decide (Exists (λ t, k = getCacheKey t lang) (map text q)))
    as [Hex|Hnex].
  - apply Exists_exists in Hex as (t & Ht & ->).
    pose proof (fill_cache_exact _ _ _ _ _ _ _ Hfill t Ht (lookup_empty _))
      as H1.
    pose proof (fill_cache_exact _ _ _ _ _ _ _ Hfill2 t
                  (proj1 (Hmem t) Ht) (lookup_empty _)) as H2.
    unfold getTranslation in *. congruence.
  - assert (∀ t, t ∈ map text q → k ≠ getCacheKey t lang) as Hk.
    { intros t Ht ->. apply Hnex, Exists_exists. eauto. }
    replace st1 with (fill api lang q ∅ st).2 by by rewrite Hfill.
    replace st2 with (fill api lang q' ∅ st).2 by by rewrite Hfill2.
    rewrite !fill_cache_frame; [done| |].
    + intros t Ht _. by apply Hk.
    + intros t Ht _. by apply Hk, Hmem.
Qed.

(** *** Traversals *)

Lemma traverseAndTranslate_fill (api : endpoint) (children : node)
    (lang : string) (st st1 : session) (out : list node) :
  traverseAndTranslate api children lang st = (Ok out, st1) →
  children ≠ Null ∧
  ∃ m, fill api lang (sort_by_depth (translationQueue children)) ∅ st
       = (Ok m, st1) ∧
       out = Children_map (applyTranslations m) children.
Proof.
  rewrite traverseAndTranslate_unfold.
  destruct (fill _ _ _ _ _) as [[m|e] st'] eqn:Hfill; [|done].
  intros Hrun. split; [by intros ->|].
  exists m. by destruct children; simplify_eq.
Qed.

Lemma fill_traverseAndTranslate (api : endpoint) (children : node)
    (lang : string) (st st1 : session) (m : translation_map) :
  children ≠ Null →
  fill api lang (sort_by_depth (translationQueue children)) ∅ st
  = (Ok m, st1) →
  traverseAndTranslate api children lang st
  = (Ok (Children_map (applyTranslations m) children), st1).
Proof.
  intros Hc Hfill. rewrite traverseAndTranslate_unfold, Hfill.
  by destruct children.
Qed.

(** X17: The depth sort cannot be observed in the result: had the queue been
    walked in any other order (the order of collection, say), a traversal
    that completes would have built the same translation map, returned
    the same tree and left the same session cache. *)
Theorem depth_sort_does_not_change_the_result
    (api : endpoint) (children : node) (lang : string) (st st1 : session)
    (out : list node) (q : list item) :
  traverseAndTranslate api children lang st = (Ok out, st1) →
  q ≡ₚ translationQueue children →
  ∃ m st2, fill api lang q ∅ st = (Ok m, st2) ∧
           out = Children_map (applyTranslations m) children ∧
           memoryCache st2 = memoryCache st1.
Proof.
  intros Hrun Hperm.
  destruct (traverseAndTranslate_fill _ _ _ _ _ _ Hrun)
    as (_ & m & Hfill & ->).
  destruct (fill_order api lang (sort_by_depth (translationQueue children))
              q m st st1) as (st2 & Hfill2 & Hc); [|done|eauto].
  by rewrite sort_by_depth_perm, Hperm.
Qed.

Lemma depth_sort_does_not_change_the_result_example :
  let api : endpoint := λ t _,
    Core.Response true "OK" (Core.Json (Some ("<" ++ t ++ ">"))) in
  let tree := Arr [ Elem "div" false (Arr [Elem "p" false (Str "deep")]);
                    Str "shallow" ] in
  ∃ m st2, fill api "es" (translationQueue tree) ∅ (mkSession ∅ [] [])
           = (Ok m, st2) ∧
           (traverseAndTranslate api tree "es" (mkSession ∅ [] [])).1
           = Ok (Children_map (applyTranslations m) tree).
Proof.
  intros api tree.
  destruct (traverseAndTranslate api tree "es" (mkSession ∅ [] []))
    as [r st1] eqn:Hrun.
  assert (r = Ok [ Elem "div" false (Arr [Elem "p" false (Str "<deep>")]);
                   Str "<shallow>" ]) as ->.
  { replace r with (traverseAndTranslate api tree "es"
                      (mkSession ∅ [] [])).1 by by rewrite Hrun.
    vm_compute. reflexivity. }
  destruct (depth_sort_does_not_change_the_result api tree "es"
              (mkSession ∅ [] []) st1 _ (translationQueue tree) Hrun)
    as (m & st2 & Hfill & Hout & _); [reflexivity|].
  exists m, st2. split; [exact Hfill|]. cbn [fst]. by rewrite Hout.
Defined.

Lemma answer_of_cached (api : endpoint) (cache : gmap string string)
    (lang t : string) :
  truthy (cached_after api cache lang t) = true →
  answer api cache lang t = Ok (cached_after api cache lang t).
Proof.
  unfold answer, cached_after.
  destruct (truthy (getTranslation cache t lang)) eqn:Hc; [done|].
  destruct (api t lang) as [|[] ? [|tr]]; try congruence.
  destruct (truthy tr) eqn:Htr; congruence.
Qed.

Lemma cached_after_hit (api : endpoint) (cache : gmap string string)
    (lang t : string) :
  truthy (getTranslation cache t lang) = true →
  cached_after api cache lang t = getTranslation cache t lang.
Proof. unfold cached_after. by intros ->. Qed.

(** X18: A tree translated once is translated again from the session cache:
    when a traversal completed and every leaf got a translation worth
    caching (it was cached already, or an ok response carried a non-empty
    translatedText), a second traversal of the same children and language
    returns the same tree without a single request and leaves the cache
    as it is, whatever the endpoint would answer by then. *)
Theorem second_traversal_is_served_from_cache
    (api : endpoint) (children : node) (lang : string) (st st1 : session)
    (out : list node) :
  traverseAndTranslate api children lang st = (Ok out, st1) →
  (∀ s, s ∈ leaves_of children →
        truthy (cached_after api (memoryCache st) lang (trim s)) = true) →
  ∀ api' : endpoint,
  ∃ st2, traverseAndTranslate api' children lang st1 = (Ok out, st2) ∧
         fetched st2 = fetched st1 ∧ memoryCache st2 = memoryCache st1.
Proof.
  intros Hrun Hall api'.
  destruct (traverseAndTranslate_fill _ _ _ _ _ _ Hrun)
    as (Hnull & m & Hfill & ->).
  set (q := sort_by_depth (translationQueue children)) in *.
  assert (∀ t, t ∈ map text q →
            truthy (cached_after api (memoryCache st) lang t) = true) as Hq.
  { intros t Ht.
    apply sorted_queue_texts, list_elem_of_fmap in Ht as (s & -> & Hs).
    by apply Hall. }
  assert (∀ t, t ∈ map text q →
            getTranslation (memoryCache st1) t lang
            = cached_after api (memoryCache st) lang t) as Hc1.
  { intros t Ht. by apply (fill_cache_exact _ _ _ _ _ _ _ Hfill). }
  assert (∀ t, t ∈ map text q →
            truthy (getTranslation (memoryCache st1) t lang) = true) as Hhit.
  { intros t Ht. rewrite Hc1 by done. by apply Hq. }
  destruct (fill_values _ _ _ _ _ _ _ Hfill) as (_ & Hnew & Hout).
  destruct (fill_ok_answers api' lang q ∅ st1) as (m2 & st2 & Hfill2).
  { intros t Ht _. unfold answer. rewrite Hhit by done. eauto. }
  destruct (fill_values _ _ _ _ _ _ _ Hfill2) as (_ & Hnew2 & Hout2).
  assert (m2 = m) as ->.
  { apply map_eq. intros t.
    destruct (decide (t ∈ map text q)) as [Ht|Ht].
    - destruct (Hnew t) as (v & Hv & ->); [done..|].
      destruct (Hnew2 t) as (v2 & Hv2 & ->); [done..|].
      rewrite answer_of_cached in Hv by by apply Hq.
      unfold answer in Hv2. rewrite Hhit, Hc1 in Hv2 by done. congruence.
    - by rewrite Hout, Hout2. }
  exists st2. split; [by apply fill_traverseAndTranslate|]. split.
  - destruct (fill_fetched api' lang q ∅ st1)
      as (newf & Hf & _ & Hsub & _).
    rewrite Hfill2 in Hf. cbn [snd] in Hf. rewrite Hf.
    destruct newf as [|c newf]; [by rewrite app_nil_r|].
    destruct (Hsub c) as (t & _ & Ht & _ & Hmiss); [by left|].
    rewrite Hhit in Hmiss by done. done.
  - apply map_eq. intros k.
    destruct (decide (Exists (λ t, k = getCacheKey t lang) (map text q)))
      as [Hex|Hnex].
    + apply Exists_exists in Hex as (t & Ht & ->).
      pose proof (fill_cache_exact _ _ _ _ _ _ _ Hfill2 t Ht
                    (lookup_empty _)) as H2.
      rewrite cached_after_hit in H2 by by apply Hhit. done.
    + replace st2 with (fill api' lang q ∅ st1).2 by by rewrite Hfill2.
      apply fill_cache_frame. intros t Ht _ ->.
      apply Hnex, Exists_exists. eauto.
Qed.

Lemma second_traversal_is_served_from_cache_example :
  let api : endpoint :=
    λ _ _, Core.Response true "OK" (Core.Json (Some "Hola")) in
  let down : endpoint := λ _ _, Core.NetworkFailure in
  let tree := Arr [Elem "p" false (Str "Hello")] in
  let st1 := (traverseAndTranslate api tree "es" (mkSession ∅ [] [])).2 in
  ∃ st2, traverseAndTranslate down tree "es" st1
         = (Ok [Elem "p" false (Str "Hola")], st2) ∧
         fetched st2 = fetched st1.
Proof.
  intros api down tree st1.
  destruct (second_traversal_is_served_from_cache api tree "es"
              (mkSession ∅ [] []) st1 [Elem "p" false (Str "Hola")])
    with (api' := down) as (st2 & Hrun & Hf & _).
  - vm_compute. reflexivity.
  - intros s Hs. vm_compute in Hs.
    apply list_elem_of_singleton in Hs as ->. vm_compute. reflexivity.
  - exists st2. split; [exact Hrun|exact Hf].
Defined.

(** *** The shape of the rebuilt tree *)

Lemma outline_Arr (l : list node) : outline (Arr l) = flat_map outline l.
Proof.
  simpl. induction l as [|x r IH]; [done|]. simpl. by rewrite IH.
Qed.

Lemma outline_Elem (tag : string) (ignore : bool) (c : node) :
  outline (Elem tag ignore c)
  = (TOpen tag ignore :: outline c ++ [TClose])%list.
Proof. done. Qed.

Lemma flat_map_outline_walk (c : node) :
  flat_map outline (Children_walk id c) = outline c.
Proof.
  induction c as [| | |l IH|] using node_nested_ind;
    try (rewrite Children_walk_leaf by done; simpl; by rewrite ?app_nil_r).
  rewrite Children_walk_Arr, outline_Arr.
  induction IH as [|x r Hx _ IHr]; [done|].
  simpl. by rewrite flat_map_app, Hx, IHr.
Qed.

Lemma outline_apply (m : translation_map) (n : node) :
  outline (applyTranslations m n) = outline n.
Proof.
  induction n as [| | | |tag ig c IH] using node_walk_ind; try done.
  simpl applyTranslations. destruct ig; [done|].
  destruct (truthy_node c) eqn:Ht; [|done].
  assert (outline (Elem tag false
            (Arr (Children_map (applyTranslations m) c)))
          = outline (Elem tag false c)) as Harr.
  { rewrite !outline_Elem, outline_Arr, Children_map_truthy by done.
    rewrite <- (flat_map_outline_walk c). do 2 f_equal.
    induction IH as [|x r Hx _ IHr]; [done|].
    simpl. by rewrite Hx, IHr. }
  by destruct c; try exact Harr.
Qed.

Lemma traversal_outline (api : endpoint) (children : node)
    (lang : string) (st : session) (out : list node) :
  (traverseAndTranslate api children lang st).1 = Ok out →
  flat_map outline out = outline children.
Proof.
  intros Hout.
  destruct (traverseAndTranslate api children lang st) as [r st1] eqn:Hrun.
  cbn in Hout. subst r.
  destruct (traverseAndTranslate_fill _ _ _ _ _ _ Hrun)
    as (Hnull & m & _ & ->).
  assert (Children_map (applyTranslations m) children
          = map (applyTranslations m) (Children_walk id children)) as ->.
  { rewrite <- Children_walk_map. by destruct children. }
  rewrite <- (flat_map_outline_walk children).
  induction (Children_walk id children) as [|x r IH]; [done|].
  simpl. by rewrite outline_apply, IH.
Qed.

(** X19: The rebuild changes nothing but the contents of strings: the rebuilt
    node has the same elements with the same tag and ignore mark, opening
    and closing at the same places, and the same numbers, empty nodes and
    string positions as the input, for every translation map; so has the
    tree a traversal returns. *)
Theorem rebuild_keeps_the_outline :
  (∀ (m : translation_map) n, outline (applyTranslations m n) = outline n) ∧
  (∀ (api : endpoint) children lang st out,
     (traverseAndTranslate api children lang st).1 = Ok out →
     flat_map outline out = outline children).
Proof. split; [apply outline_apply|apply traversal_outline]. Qed.

Lemma rebuild_keeps_the_outline_example :
  let api : endpoint :=
    λ _ _, Core.Response true "OK" (Core.Json (Some "Hola")) in
  let tree := Arr [ Elem "ul" false
                      (Arr [ Arr [Elem "li" false (Str "one"); Null];
                             Num 2; Elem "li" true (Str "three") ]) ] in
  ∃ out, (traverseAndTranslate api tree "es" (mkSession ∅ [] [])).1 = Ok out ∧
         flat_map outline out
         = [ TOpen "ul" false; TOpen "li" false; TText; TClose; TEmpty;
             TNumber 2; TOpen "li" true; TText; TClose; TClose ].
Proof.
  intros api tree.
  destruct rebuild_keeps_the_outline as [_ Hrun].
  eexists. split; [vm_compute; reflexivity|].
  rewrite (Hrun api tree "es" (mkSession ∅ [] [])); vm_compute; reflexivity.
Defined.

(** *** The component *)

Lemma commit_deps (p : props) (h : hooks) :
  deps (commit p h).1 = Some (children_ref p, lang p).
Proof.
  unfold commit. case_bool_decide as Hd; [done|].
  unfold effect. cbn [prevChildrenRef deps]. by case_bool_decide.
Qed.

Lemma settle_deps (r : result (list node)) (h : hooks) :
  deps (settle r h) = deps h.
Proof.
  unfold settle. by destruct r, (isMounted h) eqn:E; cbn; rewrite ?E.
Qed.

(** X20: Rendering again with the props of the last render does nothing: the
    effect does not run, no request is made, and hooks and session are as
    they were. In particular the state updates of a finished pass cannot
    start another one. *)
Theorem render_again_is_a_no_op
    (api api' : endpoint) (p : props) (h : hooks) (st : session) :
  let after := render api p h st in
  render api' p after.1 after.2 = after.
Proof.
  cbn zeta. unfold render at 1.
  assert (deps (render api p h st).1 = Some (children_ref p, lang p)) as Hd.
  { unfold render, performTranslation.
    pose proof (commit_deps p h) as Hc.
    destruct (commit p h) as [h1 started]. cbn [fst] in Hc.
    destruct started; [|done].
    destruct (traverseAndTranslate _ _ _ _) as [r st1]. cbn [fst].
    by rewrite settle_deps. }
  unfold commit at 1. rewrite bool_decide_eq_true_2 by done.
  by destruct (render api p h st).
Qed.

(** X21: A result that arrives after the component was unmounted is dropped:
    when the last run of the effect started a pass, unmounting clears
    [isMounted], and neither a translated tree nor a failure changes the
    hooks afterwards. *)
Theorem result_after_unmount_is_dropped
    (p : props) (h : hooks) (r : result (list node)) :
  (commit p h).2 = true →
  let gone := unmount (commit p h).1 in
  isMounted gone = false ∧ settle r gone = gone.
Proof.
  intros Hstart. cbn zeta.
  assert (cleanup (commit p h).1 = true) as Hc.
  { revert Hstart. unfold commit. case_bool_decide; [done|]. unfold effect.
    cbn [prevChildrenRef]. by case_bool_decide. }
  unfold unmount. rewrite Hc. split; [done|].
  unfold settle. by destruct r.
Qed.

Lemma result_after_unmount_is_dropped_example :
  let p := mkProps 1 (Str "Hello") "es" in
  let gone := unmount (commit p (initial p)).1 in
  translatedContent (settle (Ok [Str "Hola"]) gone) = Str "Hello".
Proof.
  intros p gone. unfold gone.
  destruct (result_after_unmount_is_dropped p (initial p) (Ok [Str "Hola"]))
    as [_ ->]; reflexivity.
Defined.

(** X22: The guard does not survive a change of language alone. When a pass
    is in flight and the component is rendered again with the same
    children and another language, the effect runs its cleanup, sets
    [isMounted] again and returns before registering a new cleanup; an
    unmount that follows leaves [isMounted] set, so the result of the pass
    still in flight is written into the hooks of the unmounted
    component. *)
Theorem unmount_guard_is_lost_after_language_change
    (p p' : props) (h : hooks) (out : list node) :
  (commit p h).2 = true →
  children_ref p' = children_ref p → lang p' ≠ lang p →
  let gone := unmount (commit p' (commit p h).1).1 in
  isMounted gone = true ∧
  translatedContent (settle (Ok out) gone) = Arr out.
Proof.
  intros Hstart Href Hlang. cbn zeta.
  pose proof (commit_deps p h) as Hd.
  assert (prevChildrenRef (commit p h).1 = children_ref p) as Hprev.
  { revert Hstart. unfold commit. case_bool_decide; [done|]. unfold effect.
    cbn [prevChildrenRef]. by case_bool_decide. }
  destruct (commit p h) as [h1 started]. cbn [fst snd] in *.
  unfold commit. rewrite bool_decide_eq_false_2
    by (rewrite Hd; intros [= _ ?]; congruence).
  unfold effect. cbn [prevChildrenRef]. rewrite Hprev, Href.
  rewrite bool_decide_eq_true_2 by done. cbn [negb fst].
  unfold unmount. cbn [cleanup]. split; [done|].
  by rewrite settle_Ok.
Qed.

Lemma unmount_guard_is_lost_after_language_change_example :
  let es := mkProps 1 (Str "Hello") "es" in
  let fr := mkProps 1 (Str "Hello") "fr" in
  let gone := unmount (commit fr (commit es (initial es)).1).1 in
  translatedContent (settle (Ok [Str "Hola"]) gone) = Arr [Str "Hola"].
Proof.
  intros es fr gone.
  destruct (unmount_guard_is_lost_after_language_change es fr (initial es)
              [Str "Hola"]) as [_ H]; [reflexivity|reflexivity|discriminate|].
  exact H.
Defined.

(** X23: Behind the endpoint of the setup guide a pass cannot fail: whatever
    the manager and the remote API do, the endpoint answers with JSON, so
    the traversal completes, the component does not enter the error state
    and shows a tree with the outline of its children. *)
Theorem guide_endpoint_never_fails_a_pass
    (api : endpoint) (p : props) (h : hooks) (st : session) :
  served_by_guide api →
  (commit p h).2 = true →
  error (render api p h st).1 = None ∧
  loading (render api p h st).1 = false ∧
  ∃ out, view (render api p h st).1 = Arr out ∧
         flat_map outline out = outline (Arr (Children_toArray (children p))).
Proof.
  intros Hguide Hstart.
  set (tree := Arr (Children_toArray (children p))).
  destruct (fill_ok api (lang p) (sort_by_depth (translationQueue tree)))
    with (m := (∅ : translation_map)) (st := st) as (m & st1 & Hfill).
  { intros t _. destruct (Hguide t (lang p)) as (remote & s & ->).
    unfold CoreRest.as_response. by destruct (bool_decide _). }
  assert (traverseAndTranslate api tree (lang p) st
          = (Ok (Children_map (applyTranslations m) tree), st1)) as Hrun
    by by apply fill_traverseAndTranslate.
  destruct (commit_started p h Hstart) as (Hload & Herr & Hmount).
  assert ((render api p h st).1
          = settle (Ok (Children_map (applyTranslations m) tree))
                   (commit p h).1) as ->.
  { unfold render, performTranslation.
    destruct (commit p h) as [h1 started]. simpl in Hstart. subst started.
    fold tree. by rewrite Hrun. }
  rewrite settle_Ok by done. unfold view. cbn [error loading translatedContent].
  rewrite Herr. split; [done|]. split; [done|].
  eexists. split; [done|].
  apply (traversal_outline api tree (lang p) st). by rewrite Hrun.
Qed.

(** The remote API is down: the manager throws, the endpoint answers 500,
    and the component shows the untranslated tree. *)
Lemma guide_endpoint_never_fails_a_pass_example :
  let api : endpoint := λ t l,
    CoreRest.as_response
      (CoreRest.post_translate Core.NetworkFailure (Some t) (Some l)
         (Core.mkState ∅ Core.Missing true 0 [])).1 in
  let p := mkProps 1 (Elem "p" false (Str "Hello")) "es" in
  error (render api p (initial p) (mkSession ∅ [] [])).1 = None ∧
  view (render api p (initial p) (mkSession ∅ [] [])).1
  = Arr [Elem "p" false (Str "Hello")].
Proof.
  intros api p.
  destruct (guide_endpoint_never_fails_a_pass api p (initial p)
              (mkSession ∅ [] [])) as (Herr & _).
  - intros t l. by eexists _, _.
  - reflexivity.
  - split; [exact Herr|]. vm_compute. reflexivity.
Defined.

End ClientExtra.
